(** * go-graphql-client: the query builder (builder.go)

    A shallow embedding of [QueryBuilder] and a verification of the
    properties its specification states about accumulation, removal and
    [Build]-time validation.

    The development has two layers.

    - The value layer follows the builder by its contents: the fragment list
      and the variable mapping that each method returns.
    - The store layer ([Module Store]) keeps Go's reference semantics: a map
      is a pointer into a store of maps, a slice is a window over a backing
      array, and a method may write through either one.  It is the layer on
      which snapshot independence is examined.  *)

From Stdlib Require Import Ascii String.
From stdpp Require Import base option list gmap strings fin_maps sorting.

Local Open Scope string_scope.
Local Open Scope nat_scope.
Local Open Scope list_scope.

(** ** Variable names in a fragment text

    [regexVariableName] is the regular expression: a dollar sign, then the
    capture group made of one character of the class [_A-Za-z] followed by
    the greedy star of the class [_0-9A-Za-z].  A Go string is a sequence of bytes, and so is
    a [string] here; every character the expression mentions is ASCII, so no
    byte of a multi-byte rune can take part in a match. *)

(** The character class [_A-Za-z]. *)
Definition isNameStart (c : ascii) : bool :=
  let n := nat_of_ascii c in
  (n =? 95) || ((65 <=? n) && (n <=? 90)) || ((97 <=? n) && (n <=? 122)).

(** The character class [_0-9A-Za-z]. *)
Definition isNameChar (c : ascii) : bool :=
  let n := nat_of_ascii c in
  (n =? 95) || ((48 <=? n) && (n <=? 57))
  || ((65 <=? n) && (n <=? 90)) || ((97 <=? n) && (n <=? 122)).

Definition isDollar (c : ascii) : bool := nat_of_ascii c =? 36.

(** The greedy star of [_0-9A-Za-z]: the longest prefix of name characters. *)
Fixpoint nameRun (s : string) : string :=
  match s with
  | String c r => if isNameChar c then String c (nameRun r) else EmptyString
  | EmptyString => EmptyString
  end.

(** The expression anchored at the first character of [s]; the result is
    capture group 1 (the name without its dollar sign). *)
Definition matchHere (s : string) : option string :=
  match s with
  | String d (String c r) =>
      if isDollar d && isNameStart c then Some (String c (nameRun r)) else None
  | _ => None
  end.

(** [FindAllStringSubmatch(query, -1)] for this expression, group 1 of each
    match: the leftmost match is taken, and the search for the next one
    resumes where that match ended.  [skip] counts the characters of the
    current match that are still to be passed over. *)
Fixpoint findAllFrom (skip : nat) (s : string) : list string :=
  match s with
  | EmptyString => []
  | String _ r =>
      match skip with
      | S k => findAllFrom k r
      | O =>
          match matchHere s with
          | Some name => name :: findAllFrom (String.length name) r
          | None => findAllFrom 0 r
          end
      end
  end.

Definition findAllVariableNames (query : string) : list string :=
  findAllFrom 0 query.

(** *** What the specification calls a variable token *)

(** A name starts with a letter or underscore and continues with letters,
    digits or underscores. *)
Inductive restOfName : string → Prop :=
  | restOfName_nil : restOfName EmptyString
  | restOfName_cons c r :
      isNameChar c = true → restOfName r → restOfName (String c r).

Definition isName (n : string) : Prop :=
  ∃ c r, n = String c r ∧ isNameStart c = true ∧ restOfName r.

(** The text that follows a token does not continue its name. *)
Definition endsName (post : string) : Prop :=
  match post with
  | String c _ => isNameChar c = false
  | EmptyString => True
  end.

(** [tokenAt text i n]: the token [$n] stands at byte offset [i] of [text]. *)
Definition tokenAt (text : string) (i : nat) (n : string) : Prop :=
  ∃ pre post,
    text = (pre ++ String "$" (n ++ post))%string
    ∧ String.length pre = i ∧ isName n ∧ endsName post.

(** The tokens of a text with their offsets, from left to right. *)
Fixpoint tokensFrom (i : nat) (s : string) : list (nat * string) :=
  match s with
  | EmptyString => []
  | String _ r =>
      match matchHere s with
      | Some n => (i, n) :: tokensFrom (S i) r
      | None => tokensFrom (S i) r
      end
  end.

(** ** The builder, by value *)

(** [queryBuilderItem]: [B] stands for the bindings, which the builder only
    stores ([interface{}] in the source). *)
Record queryBuilderItem (B : Type) := mkItem {
  query : string;
  binding : B;
  requiredVars : list string;
}.
Arguments mkItem {B} _ _ _.
Arguments query {B} _.
Arguments binding {B} _.
Arguments requiredVars {B} _.

(** [QueryBuilder]: [V] stands for the variable values.  At this layer a map
    is its contents, and the nil map reads as the empty one (length 0, every
    lookup misses, a range loop visits nothing); likewise the nil slice is
    the empty list. *)
Record QueryBuilder (V B : Type) := mkBuilder {
  queries : list (queryBuilderItem B);
  variables : gmap string V;
}.
Arguments mkBuilder {V B} _ _.
Arguments queries {V B} _.
Arguments variables {V B} _.

(** [QueryBinding], the pair of a query string and its binding. *)
Definition QueryBinding (B : Type) : Type := string * B.

(** The two errors of [Build].  [errBuildQueryRequired] is the package
    variable; the other one is built by [fmt.Errorf] from the two lists
    [requiredVars] and [varNames], which the constructor carries. *)
Inductive error :=
  | errBuildQueryRequired
  | errMismatchedVariables (want got : list string).

(** What [Build] returns: the triple [(query, variables, nil)] or
    [(nil, nil, err)]. *)
Inductive BuildResult (V B : Type) :=
  | BuildOk (query : list (QueryBinding B)) (vars : gmap string V)
  | BuildErr (err : error).
Arguments BuildOk {V B} _ _.
Arguments BuildErr {V B} _.

(** Go leaves the order in which [range] visits a map unspecified.  A
    [rangeOrder] is one such order: any enumeration of the entries. *)
Record rangeOrder (V : Type) := mkRangeOrder {
  rangeMap : gmap string V → list (string * V);
  rangeMap_perm : ∀ m, rangeMap m ≡ₚ map_to_list m;
}.
Arguments rangeMap {V} _ _.
Arguments rangeMap_perm {V} _ _.

Definition stdOrder (V : Type) : rangeOrder V :=
  mkRangeOrder V map_to_list (λ m, reflexivity (map_to_list m)).

Fixpoint sliceStringContains (slice : list string) (val : string) : bool :=
  match slice with
  | [] => false
  | s :: rest => if String.eqb s val then true else sliceStringContains rest val
  end.

Section value_layer.
Context {V B : Type}.
Implicit Types (b : QueryBuilder V B) (q : queryBuilderItem B).
Implicit Types (src dest vars : gmap string V) (ro : rangeOrder V).

Definition NewQueryBuilder : QueryBuilder V B :=
  {| queries := []; variables := ∅ |}.

Definition setMapValue src (key : string) (value : V) : gmap string V :=
  <[key := value]> src.

Definition mergeMap ro src dest : gmap string V :=
  let result := ∅ in
  let result := foldl (λ r kv, setMapValue r kv.1 kv.2) result (rangeMap ro src) in
  foldl (λ r kv, setMapValue r kv.1 kv.2) result (rangeMap ro dest).

Definition Query b (text : string) (bind : B) : QueryBuilder V B :=
  {| queries := queries b ++ [mkItem text bind (findAllVariableNames text)];
     variables := variables b |}.

(** [Variable] and [Variables]; both words are reserved here, hence the
    underscore. *)
Definition Variable_ b (key : string) (value : V) : QueryBuilder V B :=
  {| queries := queries b;
     variables := setMapValue (variables b) key value |}.

Definition Variables_ ro b (vs : gmap string V) : QueryBuilder V B :=
  {| queries := queries b;
     variables := mergeMap ro (variables b) vs |}.

(** The test that [Remove] and [RemoveQuery] make on a fragment. *)
Definition isRemoved (text : string) (extra : list string) q : bool :=
  String.eqb (query q) text || sliceStringContains extra (query q).

(** The inner loop of [Remove]: copy the entries of [vars] named by [ks]. *)
Definition copyRequired vars (newVars : gmap string V) (ks : list string)
  : gmap string V :=
  foldl (λ nv k, match vars !! k with Some v => <[k := v]> nv | None => nv end)
        newVars ks.

Definition Remove b (text : string) (extra : list string) : QueryBuilder V B :=
  let step (acc : list (queryBuilderItem B) * gmap string V) q :=
    if isRemoved text extra q then acc
    else (acc.1 ++ [q],
          if 0 <? size (variables b)
          then copyRequired (variables b) acc.2 (requiredVars q)
          else acc.2) in
  let acc := foldl step ([], ∅) (queries b) in
  {| queries := acc.1; variables := acc.2 |}.

Definition RemoveQuery b (text : string) (extra : list string)
  : QueryBuilder V B :=
  let newQueries :=
    foldl (λ nq q, if negb (String.eqb (query q) text)
                      && negb (sliceStringContains extra (query q))
                   then nq ++ [q] else nq) [] (queries b) in
  {| queries := newQueries; variables := variables b |}.

Definition RemoveVariable ro b (key : string) (extra : list string)
  : QueryBuilder V B :=
  let newVars :=
    foldl (λ nv kv, if negb (String.eqb kv.1 key)
                       && negb (sliceStringContains extra kv.1)
                    then <[kv.1 := kv.2]> nv else nv)
          ∅ (rangeMap ro (variables b)) in
  {| queries := queries b; variables := newVars |}.

(** The membership walk of [Build]: [true] as soon as a name of the list
    is not a key of [vars]. *)
Fixpoint anyUndeclared vars (names : list string) : bool :=
  match names with
  | [] => false
  | varName :: rest =>
      match vars !! varName with
      | None => true
      | Some _ => anyUndeclared vars rest
      end
  end.

Definition Build ro b : BuildResult V B :=
  if length (queries b) =? 0 then BuildErr errBuildQueryRequired
  else
    let requiredVars :=
      foldl (λ acc q, acc ++ requiredVars q) [] (queries b) in
    let variableLength := size (variables b) in
    let requiredVariableLength := length requiredVars in
    let isMismatchedVariables :=
      negb (variableLength =? requiredVariableLength) in
    let isMismatchedVariables :=
      if negb isMismatchedVariables && (0 <? requiredVariableLength)
      then anyUndeclared (variables b) requiredVars
      else isMismatchedVariables in
    if isMismatchedVariables then
      let varNames :=
        foldl (λ acc kv, acc ++ [kv.1]) [] (rangeMap ro (variables b)) in
      BuildErr (errMismatchedVariables requiredVars varNames)
    else
      let query :=
        foldl (λ acc q, acc ++ [(query q, binding q)]) [] (queries b) in
      BuildOk query (variables b).

(** *** Vocabulary of the specification *)

(** All required names of the fragments, in order, duplicates included. *)
Definition requiredOccurrences b : list string :=
  concat (requiredVars <$> queries b).

(** The keys of a mapping. *)
Definition declared vars : gset string := dom vars.

Definition isMismatch (r : BuildResult V B) : Prop :=
  ∃ want got, r = BuildErr (errMismatchedVariables want got).

(** The texts named by the arguments of [Remove] and [RemoveQuery]. *)
Definition named (text : string) (extra : list string) q : Prop :=
  query q ∈ text :: extra.

Global Instance named_dec text extra q : Decision (named text extra q).
Proof. unfold named. apply _. Defined.

(** The fragments that the arguments do not name, in their order. *)
Definition keptQueries (text : string) (extra : list string)
    (qs : list (queryBuilderItem B)) : list (queryBuilderItem B) :=
  filter (λ q, ¬ named text extra q) qs.

(** The [(text, binding)] pairs of the fragments, in their order. *)
Definition bindingsOf b : list (QueryBinding B) :=
  (λ q, (query q, binding q)) <$> queries b.

(** The fragments that the arguments name. *)
Definition removedQueries (text : string) (extra : list string)
    (qs : list (queryBuilderItem B)) : list (queryBuilderItem B) :=
  filter (named text extra) qs.

(** Fragments with pairwise-disjoint needs: two fragments at different
    positions require no common name. *)
Definition pairwiseDisjoint (qs : list (queryBuilderItem B)) : Prop :=
  ∀ i j qi qj, i ≠ j → qs !! i = Some qi → qs !! j = Some qj →
               requiredVars qi ## requiredVars qj.

(** A name that some fragment of the list requires. *)
Definition requiredBy (qs : list (queryBuilderItem B)) (k : string) : Prop :=
  Exists (λ q, k ∈ requiredVars q) qs.

Global Instance requiredBy_dec qs k : Decision (requiredBy qs k).
Proof. unfold requiredBy. apply _. Defined.

(** The mapping that the specification words for [Remove]: the original
    one without the names that a removed fragment required and no
    remaining fragment requires; every other entry kept. *)
Definition specRemoveVariables b (text : string) (extra : list string)
  : gmap string V :=
  filter (λ kv, ¬ (requiredBy (removedQueries text extra (queries b)) kv.1
                   ∧ ¬ requiredBy (keptQueries text extra (queries b)) kv.1))
         (variables b).

End value_layer.

(** ** The builder, in a store

    In Go a map value is a pointer to the map and a slice value is a header
    (array pointer, length, capacity) over a backing array.  A copy of a
    [QueryBuilder] struct copies the pointer and the header, not what they
    point to.  This layer keeps both, so that a write made through one
    builder value shows in every other value that shares its map or its
    array. *)

Module Store.

Definition loc := nat.

(** A slice header; the nil slice has no array, length 0 and capacity 0. *)
Record slice := mkSlice {
  sarray : option loc;
  slen : nat;
  scap : nat;
}.

Definition nilSlice : slice := mkSlice None 0 0.

(** The struct [QueryBuilder] as Go lays it out: a slice header and a map
    pointer, [None] being the nil map. *)
Record builder := mkRef {
  queriesRef : slice;
  variablesRef : option loc;
}.

(** The zero value [QueryBuilder{}] that the tests start from. *)
Definition zeroBuilder : builder := mkRef nilSlice None.

(** [append] leaves the capacity of a new backing array to the runtime.
    A [growthPolicy] is one choice: from the old capacity and the needed
    length to a capacity that fits. *)
Record growthPolicy := mkGrowth {
  newCap : nat → nat → nat;
  newCap_fits : ∀ old need, need ≤ newCap old need;
}.

(** Doubling, as the gc runtime does for short slices. *)
Definition doubling : growthPolicy :=
  mkGrowth (λ old need, Nat.max need (2 * old)) (λ old need, Nat.le_max_l _ _).

Section store.
Context {V B : Type} `{!Inhabited B}.

(** The heap: backing arrays of fragments, and maps. *)
Record store := mkStore {
  arrays : gmap loc (list (queryBuilderItem B));
  maps : gmap loc (gmap string V);
}.

Definition emptyStore : store := mkStore ∅ ∅.

(** Computations that read and write the heap. *)
Definition M (A : Type) : Type := store → A * store.

Definition ret {A} (x : A) : M A := λ st, (x, st).

Definition bind {A C} (c : M A) (k : A → M C) : M C :=
  λ st, let '(x, st') := c st in k x st'.

Definition gets {A} (f : store → A) : M A := λ st, (f st, st).

Notation "'let*' x ':=' c 'in' k" := (bind c (λ x, k))
  (at level 10, x pattern, c at level 100, k at level 200, only parsing).

(** A [for] loop over a list with a loop-carried value. *)
Fixpoint forEach {A S} (l : list A) (body : S → A → M S) (s : S) : M S :=
  match l with
  | [] => ret s
  | x :: rest => let* s' := body s x in forEach rest body s'
  end.

(** The zero value of an array cell; the nil interface is the
    inhabitant of [B]. *)
Definition zeroItem : queryBuilderItem B := mkItem EmptyString inhabitant [].

(** *** Reading *)

(** The contents of a map; reading the nil map finds nothing. *)
Definition mapContents (st : store) (r : option loc) : gmap string V :=
  match r with
  | Some l => default ∅ (maps st !! l)
  | None => ∅
  end.

(** The elements of a slice: the first [slen] cells of its array. *)
Definition sliceContents (st : store) (s : slice)
  : list (queryBuilderItem B) :=
  match sarray s with
  | Some a => take (slen s) (default [] (arrays st !! a))
  | None => []
  end.

(** What a builder value denotes in a heap. *)
Definition view (st : store) (b : builder) : QueryBuilder V B :=
  mkBuilder (sliceContents st (queriesRef b))
            (mapContents st (variablesRef b)).

(** *** Writing *)

(** [make(map[string]interface{})] *)
Definition makeMap : M loc := λ st,
  let l := fresh (dom (maps st)) in
  (l, mkStore (arrays st) (<[l := ∅]> (maps st))).

(** [m[key] = value] on a map that is not nil. *)
Definition mapAssign (l : loc) (key : string) (value : V) : M unit :=
  λ st, (tt, mkStore (arrays st) (alter (<[key := value]>) l (maps st))).

(** [append(s, x)]: when the capacity has room the element is written
    into the backing array of [s] itself; otherwise a new array is
    allocated and the elements are copied. *)
Definition append (gp : growthPolicy) (s : slice) (x : queryBuilderItem B)
  : M slice := λ st,
  match sarray s with
  | Some a =>
      if slen s <? scap s then
        (mkSlice (Some a) (S (slen s)) (scap s),
         mkStore (alter (<[slen s := x]>) a (arrays st)) (maps st))
      else
        let c := newCap gp (scap s) (S (slen s)) in
        let a' := fresh (dom (arrays st)) in
        let cells :=
          sliceContents st s ++ x :: replicate (c - S (slen s)) zeroItem in
        (mkSlice (Some a') (S (slen s)) c,
         mkStore (<[a' := cells]> (arrays st)) (maps st))
  | None =>
      let c := newCap gp 0 1 in
      let a' := fresh (dom (arrays st)) in
      (mkSlice (Some a') 1 c,
       mkStore (<[a' := x :: replicate (c - 1) zeroItem]> (arrays st))
               (maps st))
  end.

(** *** The functions of builder.go *)

Definition NewQueryBuilder : M builder :=
  let* m := makeMap in
  ret (mkRef nilSlice (Some m)).

Definition setMapValue (src : option loc) (key : string) (value : V)
  : M (option loc) :=
  let* l := match src with
            | None => makeMap
            | Some l => ret l
            end in
  let* _ := mapAssign l key value in
  ret (Some l).

(** The two loops of [mergeMap]: every entry goes into [result]. *)
Definition copyEntries (result : loc) (entries : list (string * V))
  : M unit :=
  forEach entries
    (λ _ kv, let* _ := setMapValue (Some result) kv.1 kv.2 in ret tt) tt.

Definition mergeMap (ro : rangeOrder V) (src dest : option loc)
  : M (option loc) :=
  let* result := makeMap in
  let* srcEntries := gets (λ st, rangeMap ro (mapContents st src)) in
  let* _ := copyEntries result srcEntries in
  let* destEntries := gets (λ st, rangeMap ro (mapContents st dest)) in
  let* _ := copyEntries result destEntries in
  ret (Some result).

Definition Query (gp : growthPolicy) (b : builder)
    (text : string) (bind : B) : M builder :=
  let* qs := append gp (queriesRef b)
               (mkItem text bind (findAllVariableNames text)) in
  ret (mkRef qs (variablesRef b)).

Definition Variable_ (b : builder) (key : string) (value : V) : M builder :=
  let* m := setMapValue (variablesRef b) key value in
  ret (mkRef (queriesRef b) m).

Definition Variables_ (ro : rangeOrder V) (b : builder)
    (vs : option loc) : M builder :=
  let* m := mergeMap ro (variablesRef b) vs in
  ret (mkRef (queriesRef b) m).

(** The inner loop of [Remove], over the required names of a kept
    fragment. *)
Definition copyRequired (b : builder) (newVars : loc) (ks : list string)
  : M unit :=
  forEach ks
    (λ _ k,
       let* vars := gets (λ st, mapContents st (variablesRef b)) in
       match vars !! k with
       | Some v => mapAssign newVars k v
       | None => ret tt
       end) tt.

(** The body of the loop of [Remove] over [b.queries]. *)
Definition removeBody (gp : growthPolicy) (b : builder)
    (text : string) (extra : list string) (newVars : loc)
    (newQueries : slice) (q : queryBuilderItem B) : M slice :=
  if isRemoved text extra q then ret newQueries
  else
    let* newQueries := append gp newQueries q in
    let* n := gets (λ st, size (mapContents st (variablesRef b))) in
    let* _ := if 0 <? n then copyRequired b newVars (requiredVars q)
              else ret tt in
    ret newQueries.

Definition Remove (gp : growthPolicy) (b : builder)
    (text : string) (extra : list string) : M builder :=
  let newQueries := nilSlice in
  let* newVars := makeMap in
  let* items := gets (λ st, sliceContents st (queriesRef b)) in
  let* newQueries :=
    forEach items (removeBody gp b text extra newVars) newQueries in
  ret (mkRef newQueries (Some newVars)).

(** The body of the loop of [RemoveQuery]. *)
Definition removeQueryBody (gp : growthPolicy)
    (text : string) (extra : list string)
    (newQueries : slice) (q : queryBuilderItem B) : M slice :=
  if negb (String.eqb (query q) text)
     && negb (sliceStringContains extra (query q))
  then append gp newQueries q
  else ret newQueries.

Definition RemoveQuery (gp : growthPolicy) (b : builder)
    (text : string) (extra : list string) : M builder :=
  let newQueries := nilSlice in
  let* items := gets (λ st, sliceContents st (queriesRef b)) in
  let* newQueries :=
    forEach items (removeQueryBody gp text extra) newQueries in
  ret (mkRef newQueries (variablesRef b)).

(** The body of the loop of [RemoveVariable]. *)
Definition removeVariableBody (key : string) (extra : list string)
    (newVars : loc) (_ : unit) (kv : string * V) : M unit :=
  if negb (String.eqb kv.1 key) && negb (sliceStringContains extra kv.1)
  then mapAssign newVars kv.1 kv.2
  else ret tt.

Definition RemoveVariable (ro : rangeOrder V) (b : builder)
    (key : string) (extra : list string) : M builder :=
  let* newVars := makeMap in
  let* entries :=
    gets (λ st, rangeMap ro (mapContents st (variablesRef b))) in
  let* _ := forEach entries (removeVariableBody key extra newVars) tt in
  ret (mkRef (queriesRef b) (Some newVars)).

(** [Build] only reads: it is the [Build] of the value layer on what the
    builder denotes in the current heap. *)
Definition Build (ro : rangeOrder V) (b : builder) : M (BuildResult V B) :=
  gets (λ st, Build ro (view st b)).

(** *** Well-formed references *)

Definition wfSlice (st : store) (s : slice) : Prop :=
  match sarray s with
  | Some a => ∃ cells, arrays st !! a = Some cells
                       ∧ length cells = scap s ∧ slen s ≤ scap s
  | None => slen s = 0 ∧ scap s = 0
  end.

Definition wfMap (st : store) (r : option loc) : Prop :=
  match r with
  | Some l => is_Some (maps st !! l)
  | None => True
  end.

Definition wf (st : store) (b : builder) : Prop :=
  wfSlice st (queriesRef b) ∧ wfMap st (variablesRef b).

(** [st'] keeps every array and every map of [st] as it is, and may
    hold more of them. *)
Definition extends (st st' : store) : Prop :=
  arrays st ⊆ arrays st' ∧ maps st ⊆ maps st'.

(** [st'] is [st] with more arrays and with one more map, [l], which
    holds [m]. *)
Definition addsMap (st : store) (l : loc) (m : gmap string V)
    (st' : store) : Prop :=
  arrays st ⊆ arrays st' ∧ maps st !! l = None
  ∧ maps st' = <[l := m]> (maps st).

(** A slice whose array, if it has one, was allocated after [st]. *)
Definition freshIn (st : store) (s : slice) : Prop :=
  match sarray s with
  | Some a => arrays st !! a = None
  | None => True
  end.

End store.

Arguments store : clear implicits.
Arguments M : clear implicits.

End Store.

(** ** The builder with a context

    [Builder] is the second builder of builder.go: the fragments and the
    variables of [QueryBuilder], and a [context.Context] that the methods
    hand on.  [C] stands for the contexts; the nil interface is [None].
    The methods are taken from their own source text, by value as in the
    first layer. *)

Module WithContext.

Record Builder (C V B : Type) := mkCtx {
  context : option C;
  queries : list (queryBuilderItem B);
  variables : gmap string V;
}.
Arguments mkCtx {C V B} _ _ _.
Arguments context {C V B} _.
Arguments queries {C V B} _.
Arguments variables {C V B} _.

Section builder.
Context {C V B : Type}.
Implicit Types (b : Builder C V B) (ro : rangeOrder V).

Definition NewBuilder : Builder C V B :=
  {| context := None; queries := []; variables := ∅ |}.

(** The method [Context]; the word is reserved here. *)
Definition Context_ b (ctx : option C) : Builder C V B :=
  {| context := ctx; queries := queries b; variables := variables b |}.

Definition Bind b (text : string) (bind : B) : Builder C V B :=
  {| context := context b;
     queries := queries b ++ [mkItem text bind (findAllVariableNames text)];
     variables := variables b |}.

Definition Variable_ b (key : string) (value : V) : Builder C V B :=
  {| context := context b;
     queries := queries b;
     variables := setMapValue (variables b) key value |}.

Definition Variables_ ro b (vs : gmap string V) : Builder C V B :=
  {| context := context b;
     queries := queries b;
     variables := mergeMap ro (variables b) vs |}.

Definition Unbind b (text : string) (extra : list string) : Builder C V B :=
  let step (acc : list (queryBuilderItem B) * gmap string V) q :=
    if String.eqb (query q) text || sliceStringContains extra (query q)
    then acc
    else (acc.1 ++ [q],
          if 0 <? size (variables b)
          then foldl (λ nv k, match variables b !! k with
                              | Some v => <[k := v]> nv
                              | None => nv
                              end) acc.2 (requiredVars q)
          else acc.2) in
  let acc := foldl step ([], ∅) (queries b) in
  {| context := context b; queries := acc.1; variables := acc.2 |}.

Definition RemoveQuery b (text : string) (extra : list string)
  : Builder C V B :=
  let newQueries :=
    foldl (λ nq q, if negb (String.eqb (query q) text)
                      && negb (sliceStringContains extra (query q))
                   then nq ++ [q] else nq) [] (queries b) in
  {| context := context b; queries := newQueries; variables := variables b |}.

Definition RemoveVariable ro b (key : string) (extra : list string)
  : Builder C V B :=
  let newVars :=
    foldl (λ nv kv, if negb (String.eqb kv.1 key)
                       && negb (sliceStringContains extra kv.1)
                    then <[kv.1 := kv.2]> nv else nv)
          ∅ (rangeMap ro (variables b)) in
  {| context := context b; queries := queries b; variables := newVars |}.

Definition Build ro b : BuildResult V B :=
  if length (queries b) =? 0 then BuildErr errBuildQueryRequired
  else
    let requiredVars :=
      foldl (λ acc q, acc ++ requiredVars q) [] (queries b) in
    let variableLength := size (variables b) in
    let requiredVariableLength := length requiredVars in
    let isMismatchedVariables :=
      negb (variableLength =? requiredVariableLength) in
    let isMismatchedVariables :=
      if negb isMismatchedVariables && (0 <? requiredVariableLength)
      then anyUndeclared (variables b) requiredVars
      else isMismatchedVariables in
    if isMismatchedVariables then
      let varNames :=
        foldl (λ acc kv, acc ++ [kv.1]) [] (rangeMap ro (variables b)) in
      BuildErr (errMismatchedVariables requiredVars varNames)
    else
      let query :=
        foldl (λ acc q, acc ++ [(query q, binding q)]) [] (queries b) in
      BuildOk query (variables b).

(** The fragments and the variables of a [Builder], as a [QueryBuilder]. *)
Definition withoutContext b : QueryBuilder V B :=
  mkBuilder (queries b) (variables b).

End builder.
End WithContext.

(** ** Scenarios *)

(** The swap of the specification: the one fragment requires [x] twice, and
    the mapping declares [x] and [y]. *)
Definition swapped : QueryBuilder nat nat :=
  Variable_ (Variable_ (Query NewQueryBuilder "f(a: $x, b: $x)" 0) "x" 1) "y" 2.

(** * Verification *)

Example findAll_ex :
  findAllVariableNames "user(id: $id, x: $_a9$b $ $9 $$c, y: $id)"
  = ["id"; "_a9"; "b"; "c"; "id"].
Proof. reflexivity. Qed.

(** ** Variable names: the scan against the tokens *)

Ltac class_arith :=
  rewrite ?orb_true_iff, ?andb_true_iff, ?orb_false_iff, ?andb_false_iff,
    ?Nat.eqb_eq, ?Nat.eqb_neq, ?Nat.leb_le, ?Nat.leb_gt in *; lia.

Lemma isNameStart_isNameChar c : isNameStart c = true → isNameChar c = true.
Proof. unfold isNameStart, isNameChar. cbv zeta. class_arith. Qed.

Lemma isNameChar_not_dollar c : isNameChar c = true → isDollar c = false.
Proof. unfold isNameChar, isDollar. cbv zeta. class_arith. Qed.

Lemma isDollar_eq c : isDollar c = true ↔ c = "$"%char.
Proof.
  unfold isDollar. rewrite Nat.eqb_eq. split.
  - intros Hc. rewrite <- (ascii_nat_embedding c), Hc. reflexivity.
  - intros ->. reflexivity.
Qed.

Lemma restOfName_nameRun s : restOfName (nameRun s).
Proof.
  induction s as [|c r IH]; simpl; [constructor|].
  destruct (isNameChar c) eqn:Hc; constructor; done.
Qed.

Lemma nameRun_split s :
  ∃ post, s = (nameRun s ++ post)%string ∧ endsName post.
Proof.
  induction s as [|c r (post & Hr & Hpost)]; simpl.
  - exists EmptyString. done.
  - destruct (isNameChar c) eqn:Hc.
    + exists post. split; [|done]. change (String c r = String c (nameRun r ++ post)%string). congruence.
    + exists (String c r). done.
Qed.

Lemma nameRun_unique r post :
  restOfName r → endsName post → nameRun (r ++ post)%string = r.
Proof.
  induction 1 as [|c r Hc _ IH]; intros Hpost; simpl.
  - destruct post as [|c post]; simpl in *; [done|]. by rewrite Hpost.
  - rewrite Hc. f_equal. by apply IH.
Qed.

Lemma nameRun_length_cons c r :
  isNameChar c = true →
  String.length (nameRun (String c r)) = S (String.length (nameRun r)).
Proof. intros Hc. simpl. by rewrite Hc. Qed.

Lemma matchHere_spec s n :
  matchHere s = Some n ↔
  ∃ post, s = String "$" (n ++ post)%string ∧ isName n ∧ endsName post.
Proof.
  split.
  - destruct s as [|d [|c r]]; simpl; try done.
    destruct (isDollar d) eqn:Hd; simpl; [|done].
    destruct (isNameStart c) eqn:Hc; [|done].
    intros [= <-]. apply isDollar_eq in Hd as ->.
    destruct (nameRun_split r) as (post & Hr & Hpost).
    exists post. split_and!; [change (String "$" (String c r) = String "$" (String c (nameRun r ++ post)%string)); congruence| |done].
    exists c, (nameRun r). split_and!; [done..|apply restOfName_nameRun].
  - intros (post & -> & (c & r & -> & Hc & Hr) & Hpost). simpl.
    rewrite Hc. simpl. by rewrite nameRun_unique.
Qed.

Lemma matchHere_name_char c r : isNameChar c = true → matchHere (String c r) = None.
Proof.
  intros Hc. apply isNameChar_not_dollar in Hc.
  destruct r; simpl; [done|]. by rewrite Hc.
Qed.

Lemma tokensFrom_cons i c r :
  tokensFrom i (String c r) =
  match matchHere (String c r) with
  | Some n => (i, n) :: tokensFrom (S i) r
  | None => tokensFrom (S i) r
  end.
Proof. reflexivity. Qed.

Lemma findAllFrom_cons c r :
  findAllFrom 0 (String c r) =
  match matchHere (String c r) with
  | Some n => n :: findAllFrom (String.length n) r
  | None => findAllFrom 0 r
  end.
Proof. reflexivity. Qed.

Lemma tokensFrom_cons_elem i c r j n :
  (j, n) ∈ tokensFrom i (String c r) ↔
  (j = i ∧ matchHere (String c r) = Some n) ∨ (j, n) ∈ tokensFrom (S i) r.
Proof.
  rewrite tokensFrom_cons.
  destruct (matchHere _) as [m|]; [rewrite elem_of_cons|].
  - split; (intros [H|H]; [left|by right]); [by injection H as -> ->|].
    destruct H as [-> [= ->]]. done.
  - split; [by right|]. by intros [[_ ?]|?].
Qed.

Lemma tokensFrom_spec s i j n :
  (j, n) ∈ tokensFrom i s ↔
  ∃ pre post, s = (pre ++ String "$" (n ++ post))%string
              ∧ j = i + String.length pre ∧ isName n ∧ endsName post.
Proof.
  revert i. induction s as [|c r IH]; intros i.
  - simpl. split; [by intros ?%elem_of_nil|].
    intros ([|??] & ? & ? & _); simplify_eq/=.
  - rewrite tokensFrom_cons_elem, matchHere_spec, IH. split.
    + intros [[-> (post & Hs & ? & ?)]|(pre & post & Hs & -> & ? & ?)].
      * exists EmptyString, post. split_and!; [done|simpl; lia|done..].
      * exists (String c pre), post.
        split_and!; [by rewrite Hs|simpl; lia|done..].
    + intros ([|c' pre] & post & Hs & Hj & ? & ?); simpl in Hs, Hj.
      * left. split; [lia|by exists post].
      * right. injection Hs as -> Hs. exists pre, post.
        split_and!; [done|lia|done..].
Qed.

Lemma tokensFrom_ge s i j n : (j, n) ∈ tokensFrom i s → i ≤ j.
Proof. rewrite tokensFrom_spec. intros (? & ? & _ & -> & _). lia. Qed.

Lemma tokensFrom_sorted s i : StronglySorted lt (tokensFrom i s).*1.
Proof.
  revert i. induction s as [|c r IH]; intros i; [constructor|].
  rewrite tokensFrom_cons. destruct (matchHere _); [|done]. simpl. constructor; [done|].
  apply Forall_forall. intros j [[j' n] [-> Hj]]%list_elem_of_fmap.
  apply tokensFrom_ge in Hj. simpl. lia.
Qed.

Lemma findAllFrom_tokens s k i :
  k ≤ String.length (nameRun s) → findAllFrom k s = (tokensFrom i s).*2.
Proof.
  revert k i. induction s as [|c r IH]; intros k i Hk; [done|].
  destruct k as [|k].
  - rewrite findAllFrom_cons, tokensFrom_cons.
    destruct (matchHere (String c r)) as [n|] eqn:Hm; [|apply IH; lia].
    simpl. f_equal. apply IH.
    destruct r as [|c' r']; simpl in Hm; [done|].
    destruct (isDollar c && isNameStart c') eqn:Hc; [|done].
    injection Hm as <-. apply andb_true_iff in Hc as [_ Hc].
    rewrite nameRun_length_cons by by apply isNameStart_isNameChar. done.
  - simpl in Hk. destruct (isNameChar c) eqn:Hc; simpl in Hk; [|lia].
    rewrite tokensFrom_cons, matchHere_name_char by done.
    change (findAllFrom (S k) (String c r)) with (findAllFrom k r).
    apply IH. lia.
Qed.

(** ** Loops as list and map operations *)

Lemma sliceStringContains_elem slice val :
  sliceStringContains slice val = true ↔ val ∈ slice.
Proof.
  induction slice as [|s rest IH]; simpl.
  - by rewrite elem_of_nil.
  - rewrite elem_of_cons. destruct (String.eqb_spec s val) as [->|Hne].
    + tauto.
    + rewrite IH. split; [tauto|]. intros [?|?]; congruence.
Qed.

Lemma foldl_app_concat {A C} (f : A → list C) (l : list A) (acc : list C) :
  foldl (λ acc x, acc ++ f x) acc l = acc ++ concat (f <$> l).
Proof.
  revert acc. induction l as [|x l IH]; intros acc; simpl.
  - by rewrite app_nil_r.
  - by rewrite IH, app_assoc.
Qed.

Lemma elem_of_concat {A} (x : A) (ls : list (list A)) :
  x ∈ concat ls ↔ ∃ l, x ∈ l ∧ l ∈ ls.
Proof.
  induction ls as [|l0 ls IH]; simpl.
  - split; [by intros ?%elem_of_nil|]. by intros (? & _ & ?%elem_of_nil).
  - rewrite elem_of_app, IH. split.
    + intros [?|(l & ? & ?)]; [exists l0|exists l]; split; by constructor || done.
    + intros (l & ? & [->|?]%elem_of_cons); [by left|right; by exists l].
Qed.

Lemma foldl_snoc_fmap {A C} (f : A → C) (l : list A) (acc : list C) :
  foldl (λ acc x, acc ++ [f x]) acc l = acc ++ (f <$> l).
Proof.
  revert acc. induction l as [|x l IH]; intros acc; simpl.
  - by rewrite app_nil_r.
  - by rewrite IH, <- app_assoc.
Qed.

Lemma foldl_snoc_filter {A} (p : A → bool) (P : A → Prop)
    `{!∀ x, Decision (P x)} (l acc : list A) :
  (∀ x, p x = true ↔ P x) →
  foldl (λ acc x, if p x then acc ++ [x] else acc) acc l = acc ++ filter P l.
Proof.
  intros Hp. revert acc. induction l as [|x l IH]; intros acc; simpl.
  - by rewrite app_nil_r.
  - rewrite IH. destruct (p x) eqn:Hx.
    + apply Hp in Hx. rewrite filter_cons_True by done. by rewrite <- app_assoc.
    + rewrite filter_cons_False; [done|]. rewrite <- Hp. congruence.
Qed.

Lemma filter_all {A} (P : A → Prop) `{!∀ x, Decision (P x)} (l : list A) :
  (∀ x, x ∈ l → P x) → filter P l = l.
Proof.
  induction l as [|x l IH]; intros Hall; [done|].
  rewrite filter_cons_True by (apply Hall; by left).
  f_equal. apply IH. intros y Hy. apply Hall. by right.
Qed.

Section maps.
Context {V : Type}.
Implicit Types (m vars nv : gmap string V) (l : list (string * V)).

Lemma foldl_setMapValue l m :
  foldl (λ r kv, setMapValue r kv.1 kv.2) m l = list_to_map (reverse l) ∪ m.
Proof.
  revert m. induction l as [|[k v] l IH]; intros m; simpl.
  - by rewrite (left_id_L ∅ (∪)).
  - rewrite IH, reverse_cons, list_to_map_app. simpl. unfold setMapValue.
    rewrite <- (assoc_L (∪)). f_equal.
    by rewrite insert_union_singleton_l, insert_empty.
Qed.

Lemma foldl_insert_if (p : string * V → bool) (P : string * V → Prop)
    `{!∀ x, Decision (P x)} l m :
  (∀ x, p x = true ↔ P x) →
  foldl (λ nv kv, if p kv then <[kv.1 := kv.2]> nv else nv) m l
  = list_to_map (filter P (reverse l)) ∪ m.
Proof.
  intros Hp. revert m. induction l as [|[k v] l IH]; intros m; simpl.
  - by rewrite (left_id_L ∅ (∪)).
  - rewrite IH, reverse_cons, filter_app, list_to_map_app.
    rewrite <- (assoc_L (∪)). f_equal. destruct (p (k, v)) eqn:Hx.
    + apply Hp in Hx. rewrite filter_cons_True by done. simpl.
      by rewrite insert_union_singleton_l, insert_empty.
    + rewrite filter_cons_False by (rewrite <- Hp; congruence).
      rewrite filter_nil. simpl. by rewrite (left_id_L ∅ (∪)).
Qed.

Lemma list_to_map_range (ro : rangeOrder V) m :
  list_to_map (reverse (rangeMap ro m)) = m.
Proof.
  rewrite <- (list_to_map_to_list m) at 2. apply list_to_map_proper.
  - rewrite reverse_Permutation, rangeMap_perm. apply NoDup_fst_map_to_list.
  - by rewrite reverse_Permutation, rangeMap_perm.
Qed.

Lemma list_to_map_filter_range (ro : rangeOrder V) (P : string * V → Prop)
    `{!∀ x, Decision (P x)} m :
  list_to_map (filter P (reverse (rangeMap ro m))) = filter P m.
Proof.
  rewrite map_filter_alt. apply list_to_map_proper.
  - eapply sublist_NoDup; [|apply fmap_sublist, sublist_filter].
    rewrite reverse_Permutation, rangeMap_perm. apply NoDup_fst_map_to_list.
  - by rewrite reverse_Permutation, rangeMap_perm.
Qed.

Lemma mergeMap_union (ro : rangeOrder V) src dest :
  mergeMap ro src dest = dest ∪ src.
Proof.
  unfold mergeMap. rewrite !foldl_setMapValue, !list_to_map_range.
  by rewrite (right_id_L ∅ (∪)).
Qed.

Lemma range_keys (ro : rangeOrder V) m :
  foldl (λ acc kv, acc ++ [kv.1]) [] (rangeMap ro m) ≡ₚ (map_to_list m).*1.
Proof. rewrite foldl_snoc_fmap. simpl. by rewrite rangeMap_perm. Qed.

Lemma anyUndeclared_true vars names :
  anyUndeclared vars names = true ↔ ∃ k, k ∈ names ∧ k ∉ declared vars.
Proof.
  unfold declared. induction names as [|k names IH]; simpl.
  - split; [done|]. by intros (? & ?%elem_of_nil & _).
  - destruct (vars !! k) as [v|] eqn:Hk.
    + rewrite IH. split; intros (k' & Hin & Hk').
      * exists k'. split; [by right|done].
      * exists k'. split; [|done]. apply elem_of_cons in Hin as [->|?]; [|done].
        exfalso. apply Hk', elem_of_dom. eauto.
    + split; [|done]. intros _. exists k. split; [by left|].
      by apply not_elem_of_dom.
Qed.

Lemma copyRequired_lookup vars nv (ks : list string) k :
  copyRequired vars nv ks !! k =
  if decide (k ∈ ks) then
    match vars !! k with Some v => Some v | None => nv !! k end
  else nv !! k.
Proof.
  unfold copyRequired. revert nv. induction ks as [|k' ks IH]; intros nv; simpl.
  - done.
  - rewrite IH. destruct (decide (k = k')) as [->|Hne].
    + rewrite (decide_True (P := k' ∈ k' :: ks)) by by left.
      destruct (vars !! k') as [v|] eqn:Hv; rewrite ?lookup_insert_eq;
        by repeat case_decide.
    + assert (Hnv : (match vars !! k' with
                     | Some v => <[k' := v]> nv | None => nv end) !! k = nv !! k).
      { destruct (vars !! k'); [by rewrite lookup_insert_ne|done]. }
      rewrite Hnv. destruct (decide (k ∈ ks)).
      * by rewrite decide_True by by right.
      * rewrite decide_False; [done|]. rewrite elem_of_cons. tauto.
Qed.

Lemma copyRequired_guard vars nv (ks : list string) :
  (if 0 <? size vars then copyRequired vars nv ks else nv)
  = copyRequired vars nv ks.
Proof.
  destruct (0 <? size vars) eqn:Hsz; [done|].
  apply Nat.ltb_ge in Hsz. assert (vars = ∅) as ->.
  { apply map_size_empty_inv. lia. }
  apply map_eq. intros k. rewrite copyRequired_lookup, lookup_empty.
  by case_decide.
Qed.
End maps.

Section methods.
Context {V B : Type}.
Implicit Types (b : QueryBuilder V B) (q : queryBuilderItem B).
Implicit Types (qs : list (queryBuilderItem B)).
Implicit Types (vars nv : gmap string V) (ro : rangeOrder V).

Lemma isRemoved_named text extra q :
  isRemoved text extra q = true ↔ named text extra q.
Proof.
  unfold isRemoved, named.
  rewrite orb_true_iff, String.eqb_eq, sliceStringContains_elem, elem_of_cons.
  done.
Qed.

Lemma notRemoved_named text extra q :
  negb (String.eqb (query q) text)
  && negb (sliceStringContains extra (query q)) = true
  ↔ ¬ named text extra q.
Proof.
  rewrite <- negb_orb, negb_true_iff, <- not_true_iff_false.
  apply not_iff_compat, isRemoved_named.
Qed.

Lemma requiredOccurrences_loop qs :
  foldl (λ acc q, acc ++ requiredVars q) [] qs = concat (requiredVars <$> qs).
Proof. by rewrite foldl_app_concat. Qed.

Lemma RemoveQuery_queries b text extra :
  queries (RemoveQuery b text extra) = keptQueries text extra (queries b).
Proof.
  unfold RemoveQuery, keptQueries. simpl.
  rewrite (foldl_snoc_filter _ (λ q, ¬ named text extra q)); [done|].
  intros q. apply notRemoved_named.
Qed.

Lemma Remove_loop b text extra qs acc :
  foldl (λ (acc : list (queryBuilderItem B) * gmap string V) q,
           if isRemoved text extra q then acc
           else (acc.1 ++ [q],
                 if 0 <? size (variables b)
                 then copyRequired (variables b) acc.2 (requiredVars q)
                 else acc.2)) acc qs
  = (acc.1 ++ keptQueries text extra qs,
     foldl (λ nv q, copyRequired (variables b) nv (requiredVars q))
           acc.2 (keptQueries text extra qs)).
Proof.
  unfold keptQueries.
  revert acc. induction qs as [|q qs IH]; intros [nq nv]; simpl.
  - by rewrite app_nil_r.
  - rewrite IH. destruct (isRemoved text extra q) eqn:Hq.
    + apply isRemoved_named in Hq. rewrite filter_cons_False; [done|tauto].
    + rewrite filter_cons_True.
      2:{ rewrite <- isRemoved_named. congruence. }
      simpl. by rewrite copyRequired_guard, <- app_assoc.
Qed.

Lemma copyAll_lookup vars nv qs k :
  foldl (λ nv q, copyRequired vars nv (requiredVars q)) nv qs !! k =
  if decide (requiredBy qs k) then
    match vars !! k with Some v => Some v | None => nv !! k end
  else nv !! k.
Proof.
  unfold requiredBy.
  revert nv. induction qs as [|q qs IH]; intros nv; cbn [foldl].
  - rewrite decide_False; [done|]. by intros ?%Exists_nil.
  - rewrite IH, copyRequired_lookup.
    destruct (decide (Exists _ (q :: qs))) as [He|He]; rewrite Exists_cons in He;
      repeat case_decide; destruct (vars !! k); done || tauto.
Qed.

Lemma Remove_queries b text extra :
  queries (Remove b text extra) = keptQueries text extra (queries b).
Proof. unfold Remove. cbv zeta. by rewrite Remove_loop. Qed.

Lemma Remove_variables b text extra :
  variables (Remove b text extra)
  = filter (λ kv, requiredBy (keptQueries text extra (queries b)) kv.1)
           (variables b).
Proof.
  unfold Remove. cbv zeta. rewrite Remove_loop. simpl.
  apply map_eq. intros k.
  rewrite copyAll_lookup, map_lookup_filter, lookup_empty.
  destruct (variables b !! k) as [v|]; simpl; case_decide;
    try case_guard; done.
Qed.

Lemma RemoveVariable_variables ro b key extra :
  variables (RemoveVariable ro b key extra)
  = filter (λ kv, kv.1 ∉ key :: extra) (variables b).
Proof.
  unfold RemoveVariable. simpl.
  rewrite (foldl_insert_if _ (λ kv, kv.1 ∉ key :: extra)).
  - by rewrite list_to_map_filter_range, (right_id_L ∅ (∪)).
  - intros [k v]. simpl.
    rewrite andb_true_iff, !negb_true_iff, <- !not_true_iff_false.
    rewrite String.eqb_eq, sliceStringContains_elem, elem_of_cons. tauto.
Qed.

Lemma Variables_variables ro b vs :
  variables (Variables_ ro b vs) = vs ∪ variables b.
Proof. apply mergeMap_union. Qed.

Lemma Build_empty ro b : queries b = [] → Build ro b = BuildErr errBuildQueryRequired.
Proof. unfold Build. by intros ->. Qed.

Lemma Build_nonempty ro b :
  queries b ≠ [] →
  Build ro b =
  if negb (size (variables b) =? length (requiredOccurrences b))
     || anyUndeclared (variables b) (requiredOccurrences b)
  then BuildErr (errMismatchedVariables (requiredOccurrences b)
                                        (rangeMap ro (variables b)).*1)
  else BuildOk (bindingsOf b) (variables b).
Proof.
  intros Hne. unfold Build.
  replace (length (queries b) =? 0) with false
    by (by destruct (queries b)).
  rewrite requiredOccurrences_loop, !foldl_snoc_fmap.
  fold (requiredOccurrences b). fold (bindingsOf b). cbv zeta.
  destruct (size (variables b) =? length (requiredOccurrences b)); [|done].
  destruct (requiredOccurrences b) as [|k ks]; done.
Qed.

Lemma Build_mismatched ro b :
  queries b ≠ [] →
  size (variables b) ≠ length (requiredOccurrences b)
  ∨ (∃ k, k ∈ requiredOccurrences b ∧ k ∉ declared (variables b)) →
  Build ro b =
  BuildErr (errMismatchedVariables (requiredOccurrences b)
                                   (rangeMap ro (variables b)).*1).
Proof.
  intros Hne Hbad. rewrite Build_nonempty by done.
  destruct Hbad as [Hsz|Hk].
  - apply Nat.eqb_neq in Hsz. by rewrite Hsz.
  - apply anyUndeclared_true in Hk. by rewrite Hk, orb_true_r.
Qed.

Lemma Build_ok ro b :
  queries b ≠ [] →
  size (variables b) = length (requiredOccurrences b) →
  (∀ k, k ∈ requiredOccurrences b → k ∈ declared (variables b)) →
  Build ro b = BuildOk (bindingsOf b) (variables b).
Proof.
  intros Hne Hsz Hall. rewrite Build_nonempty by done.
  apply Nat.eqb_eq in Hsz. rewrite Hsz.
  destruct (anyUndeclared _ _) eqn:Hany; [|done].
  apply anyUndeclared_true in Hany as (k & Hk & Hundecl).
  destruct Hundecl. by apply Hall.
Qed.

Lemma Build_cases ro b :
  queries b ≠ [] →
  (size (variables b) = length (requiredOccurrences b)
   ∧ ∀ k, k ∈ requiredOccurrences b → k ∈ declared (variables b))
  ∨ (size (variables b) ≠ length (requiredOccurrences b)
     ∨ ∃ k, k ∈ requiredOccurrences b ∧ k ∉ declared (variables b)).
Proof.
  intros _. destruct (decide (size (variables b)
                              = length (requiredOccurrences b))); [|tauto].
  destruct (anyUndeclared (variables b) (requiredOccurrences b)) eqn:Hany.
  - apply anyUndeclared_true in Hany. tauto.
  - left. split; [done|]. intros k Hk.
    destruct (decide (k ∈ declared (variables b))); [done|].
    apply not_true_iff_false in Hany. destruct Hany.
    apply anyUndeclared_true. eauto.
Qed.

Lemma NoDup_concat_requiredVars qs :
  Forall (λ q, NoDup (requiredVars q)) qs →
  (∀ i j qi qj, i ≠ j → qs !! i = Some qi → qs !! j = Some qj →
                requiredVars qi ## requiredVars qj) →
  NoDup (concat (requiredVars <$> qs)).
Proof.
  induction qs as [|q qs IH]; intros Hnd Hdisj; simpl; [constructor|].
  apply Forall_cons in Hnd as [Hq Hqs].
  apply NoDup_app. split_and!; [done| |].
  - intros k Hk (ks & Hks & (q' & -> & Hq')%list_elem_of_fmap)%elem_of_concat.
    apply list_elem_of_lookup in Hq' as [j Hj].
    by apply (Hdisj 0 (S j) q q' ltac:(done) eq_refl Hj k).
  - apply IH; [done|]. intros i j qi qj Hij Hi Hj.
    apply (Hdisj (S i) (S j)); [lia|done..].
Qed.

Lemma size_list_to_set_le (l : list string) :
  size (list_to_set l : gset string) ≤ length l.
Proof.
  induction l as [|k l IH]; [by rewrite list_to_set_nil, size_empty|].
  rewrite list_to_set_cons; simpl length.
  rewrite size_union_alt, size_singleton.
  assert (size (list_to_set l ∖ {[k]} : gset string) ≤ size (list_to_set l : gset string))
    by (apply subseteq_size; set_solver).
  lia.
Qed.

Lemma size_list_to_set_dup (l : list string) :
  ¬ NoDup l → size (list_to_set l : gset string) < length l.
Proof.
  induction l as [|k l IH]; intros Hdup.
  - destruct Hdup. constructor.
  - rewrite list_to_set_cons; simpl length.
    destruct (decide (k ∈ l)) as [Hk|Hk].
    + assert ({[k]} ∪ list_to_set l = (list_to_set l : gset string)) as ->
        by set_solver.
      pose proof (size_list_to_set_le l). lia.
    + rewrite size_union by set_solver. rewrite size_singleton.
      assert (¬ NoDup l) by (intros ?; apply Hdup; by constructor).
      specialize (IH ltac:(done)). lia.
Qed.
End methods.

(** ** The store layer against the value layer *)

Section store_facts.
Context {V B : Type} `{!Inhabited B}.
Implicit Types (st : Store.store V B) (s : Store.slice) (b : Store.builder).
Implicit Types (r : option Store.loc) (x : queryBuilderItem B).

Lemma fresh_map_None st : Store.maps st !! fresh (dom (Store.maps st)) = None.
Proof. apply not_elem_of_dom, is_fresh. Qed.

Lemma fresh_array_None st :
  Store.arrays st !! fresh (dom (Store.arrays st)) = None.
Proof. apply not_elem_of_dom, is_fresh. Qed.

Lemma extends_refl st : Store.extends st st.
Proof. split; reflexivity. Qed.

Lemma extends_trans st1 st2 st3 :
  Store.extends st1 st2 → Store.extends st2 st3 → Store.extends st1 st3.
Proof. intros [? ?] [? ?]. split; etrans; done. Qed.

Lemma sliceContents_weaken st st' s :
  Store.arrays st ⊆ Store.arrays st' → Store.wfSlice st s →
  Store.wfSlice st' s ∧ Store.sliceContents st' s = Store.sliceContents st s.
Proof.
  unfold Store.wfSlice, Store.sliceContents. intros Hsub Hwf.
  destruct (Store.sarray s) as [a|]; [|done].
  destruct Hwf as (cells & Ha & Hlen & Hle).
  pose proof (lookup_weaken _ _ _ _ Ha Hsub) as Ha'.
  rewrite Ha, Ha'. split; [by exists cells|done].
Qed.

Lemma mapContents_weaken st st' r :
  Store.maps st ⊆ Store.maps st' → Store.wfMap st r →
  Store.wfMap st' r ∧ Store.mapContents st' r = Store.mapContents st r.
Proof.
  unfold Store.wfMap, Store.mapContents. intros Hsub Hwf.
  destruct r as [l|]; [|done]. destruct Hwf as [m Hm].
  pose proof (lookup_weaken _ _ _ _ Hm Hsub) as Hm'.
  rewrite Hm, Hm'. split; [by exists m|done].
Qed.

(** A builder value means the same in every extension of its store. *)
Lemma view_extends st st' b :
  Store.extends st st' → Store.wf st b →
  Store.wf st' b ∧ Store.view st' b = Store.view st b.
Proof.
  intros [Ha Hm] [Hs Hr].
  destruct (sliceContents_weaken st st' _ Ha Hs) as [? Hsc].
  destruct (mapContents_weaken st st' _ Hm Hr) as [? Hmc].
  split; [by split|]. unfold Store.view. by rewrite Hsc, Hmc.
Qed.

(** *** [append] *)

Lemma append_spec gp st s x s' st' :
  Store.wfSlice st s → Store.append gp s x st = (s', st') →
  Store.wfSlice st' s' ∧ Store.maps st' = Store.maps st
  ∧ Store.sliceContents st' s' = Store.sliceContents st s ++ [x].
Proof.
  unfold Store.append, Store.wfSlice, Store.sliceContents.
  destruct s as [[a|] len cap]; simpl.
  - intros (cells & Ha & Hlen & Hle).
    destruct (len <? cap) eqn:Hroom; intros [= <- <-]; simpl.
    + apply Nat.ltb_lt in Hroom.
      rewrite lookup_alter_eq, Ha. simpl. split_and!; [|done|].
      * exists (<[len := x]> cells). by rewrite length_insert.
      * rewrite (take_S_r _ _ x), take_insert_ge by
          (done || apply list_lookup_insert_eq; lia). done.
    + apply Nat.ltb_ge in Hroom. assert (len = cap) as -> by lia.
      pose proof (Store.newCap_fits gp cap (S cap)).
      rewrite lookup_insert_eq, Ha. simpl. split_and!; [|done|].
      * eexists. split; [done|]. split; [|done].
        rewrite length_app, length_take_le by lia. simpl.
        rewrite length_replicate. lia.
      * rewrite cons_middle, app_assoc. apply take_app_length'.
        rewrite length_app, length_take_le by lia. simpl. lia.
  - intros [-> ->] [= <- <-]. simpl.
    pose proof (Store.newCap_fits gp 0 1).
    rewrite lookup_insert_eq. simpl. split_and!; [|done..].
    eexists. split; [done|]. simpl. rewrite length_replicate. lia.
Qed.

(** What [append] leaves alone: a slice over another array, and a slice
    over the same array that is not longer than the one appended to. *)
Lemma append_frame gp st s x s' st' s0 :
  Store.wfSlice st s → Store.append gp s x st = (s', st') →
  Store.wfSlice st s0 →
  Store.sarray s0 ≠ Store.sarray s ∨ Store.slen s0 ≤ Store.slen s →
  Store.wfSlice st' s0
  ∧ Store.sliceContents st' s0 = Store.sliceContents st s0.
Proof.
  unfold Store.append, Store.wfSlice, Store.sliceContents.
  destruct s as [[a|] len cap], s0 as [[a0|] len0 cap0]; simpl; try done.
  - intros (cells & Ha & Hlen & Hle) Happ (cells0 & Ha0 & Hlen0 & Hle0) Hsep.
    destruct (len <? cap) eqn:Hroom; injection Happ as <- <-; simpl.
    + destruct (decide (a0 = a)) as [->|Hne].
      * destruct Hsep as [?|Hsep]; [done|]. simplify_eq.
        rewrite lookup_alter_eq, Ha. simpl. split.
        -- exists (<[len := x]> cells). by rewrite length_insert.
        -- by rewrite take_insert_ge.
      * rewrite lookup_alter_ne, Ha0 by done. split; [by exists cells0|done].
    + assert (a0 ≠ fresh (dom (Store.arrays st))) as Hne.
      { intros ->. by rewrite fresh_array_None in Ha0. }
      rewrite lookup_insert_ne, Ha0 by done. split; [by exists cells0|done].
  - intros _ [= <- <-] (cells0 & Ha0 & Hlen0 & Hle0) _. simpl.
    assert (a0 ≠ fresh (dom (Store.arrays st))) as Hne.
    { intros ->. by rewrite fresh_array_None in Ha0. }
    rewrite lookup_insert_ne, Ha0 by done. split; [by exists cells0|done].
Qed.

(** [append] on a slice allocated after [st0] keeps the arrays of [st0]. *)
Lemma append_fresh gp st0 st s x s' st' :
  Store.arrays st0 ⊆ Store.arrays st → Store.freshIn st0 s →
  Store.append gp s x st = (s', st') →
  Store.arrays st0 ⊆ Store.arrays st' ∧ Store.freshIn st0 s'.
Proof.
  unfold Store.append, Store.freshIn. intros Hsub Hfresh Happ.
  assert (Hnew : Store.arrays st0 !! fresh (dom (Store.arrays st)) = None).
  { destruct (Store.arrays st0 !! _) as [cells|] eqn:Hc; [|done].
    pose proof (lookup_weaken _ _ _ _ Hc Hsub) as Hc'.
    by rewrite fresh_array_None in Hc'. }
  destruct s as [[a|] len cap]; simpl in *.
  - destruct (len <? cap); injection Happ as <- <-; simpl.
    + split; [|done]. apply map_subseteq_spec. intros a0 cells0 Ha0.
      rewrite lookup_alter_ne by congruence. by eapply lookup_weaken.
    + split; [|done]. etrans; [done|]. apply insert_subseteq, fresh_array_None.
  - injection Happ as <- <-; simpl.
    split; [|done]. etrans; [done|]. apply insert_subseteq, fresh_array_None.
Qed.
End store_facts.

Section store_maps.
Context {V B : Type} `{!Inhabited B}.
Implicit Types (st : Store.store V B) (s : Store.slice) (b : Store.builder).
Implicit Types (r : option Store.loc) (l : Store.loc) (m : gmap string V).

Lemma addsMap_extends st0 l m st :
  Store.addsMap st0 l m st → Store.extends st0 st.
Proof.
  intros (Ha & Hl & Hm). split; [done|]. rewrite Hm. by apply insert_subseteq.
Qed.

Lemma addsMap_read st0 l m st r :
  Store.addsMap st0 l m st → Store.wfMap st0 r →
  Store.mapContents st r = Store.mapContents st0 r.
Proof.
  intros Hadds Hr. apply addsMap_extends in Hadds as [_ Hsub].
  by apply mapContents_weaken.
Qed.

Lemma addsMap_new st0 l m st :
  Store.addsMap st0 l m st →
  Store.wfMap st (Some l) ∧ Store.mapContents st (Some l) = m.
Proof.
  intros (_ & _ & Hm). unfold Store.wfMap, Store.mapContents.
  rewrite Hm, lookup_insert_eq. split; [by exists m|done].
Qed.

Lemma makeMap_addsMap st l st' :
  Store.makeMap st = (l, st') → Store.addsMap st l ∅ st'.
Proof.
  unfold Store.makeMap. intros [= <- <-]. split_and!; simpl; [done| |done].
  apply fresh_map_None.
Qed.

Lemma mapAssign_addsMap st0 l m st key value u st' :
  Store.addsMap st0 l m st → Store.mapAssign l key value st = (u, st') →
  Store.addsMap st0 l (<[key := value]> m) st'.
Proof.
  unfold Store.mapAssign. intros (Ha & Hl & Hm) [= <- <-].
  split_and!; simpl; [done..|]. apply map_eq. intros l'.
  rewrite Hm. destruct (decide (l' = l)) as [->|Hne].
  - by rewrite lookup_alter_eq, !lookup_insert_eq.
  - by rewrite lookup_alter_ne, !lookup_insert_ne.
Qed.

Lemma copyEntries_spec st0 l entries m st u st' :
  Store.addsMap st0 l m st → Store.copyEntries l entries st = (u, st') →
  Store.addsMap st0 l (foldl (λ acc kv, setMapValue acc kv.1 kv.2) m entries) st'.
Proof.
  unfold Store.copyEntries.
  revert m st. induction entries as [|[k v] entries IH]; intros m st Hadds.
  - by intros [= <- <-].
  - cbn [Store.forEach foldl]. unfold Store.bind at 1.
    unfold Store.bind at 1. unfold Store.setMapValue at 1.
    unfold Store.bind at 1, Store.ret at 1. unfold Store.bind at 1.
    destruct (Store.mapAssign l k v st) as [[] st1] eqn:Hassign.
    unfold Store.ret at 1. unfold Store.ret at 1. apply IH.
    by eapply mapAssign_addsMap.
Qed.

Lemma removeVariable_loop st0 key extra l entries m st u st' :
  Store.addsMap st0 l m st →
  Store.forEach entries (Store.removeVariableBody key extra l) tt st = (u, st') →
  Store.addsMap st0 l
    (foldl (λ nv kv, if negb (String.eqb kv.1 key)
                        && negb (sliceStringContains extra kv.1)
                     then <[kv.1 := kv.2]> nv else nv) m entries) st'.
Proof.
  revert m st. induction entries as [|[k v] entries IH]; intros m st Hadds.
  - by intros [= <- <-].
  - cbn [Store.forEach foldl]. unfold Store.bind at 1.
    unfold Store.removeVariableBody at 1. simpl.
    destruct (negb (k =? key)%string && negb (sliceStringContains extra k)).
    + destruct (Store.mapAssign l k v st) as [[] st1] eqn:Hassign.
      apply IH. by eapply mapAssign_addsMap.
    + unfold Store.ret at 1. by apply IH.
Qed.

Lemma copyRequired_spec st0 b l ks m st u st' :
  Store.wfMap st0 (Store.variablesRef b) →
  Store.addsMap st0 l m st → Store.copyRequired b l ks st = (u, st') →
  Store.addsMap st0 l
    (copyRequired (Store.mapContents st0 (Store.variablesRef b)) m ks) st'.
Proof.
  unfold Store.copyRequired, copyRequired. intros Hwf.
  revert m st. induction ks as [|k ks IH]; intros m st Hadds.
  - by intros [= <- <-].
  - cbn [Store.forEach foldl]. unfold Store.bind at 1.
    unfold Store.bind at 1, Store.gets at 1.
    rewrite (addsMap_read st0 l m st) by done.
    destruct (Store.mapContents st0 (Store.variablesRef b) !! k) as [v|].
    + destruct (Store.mapAssign l k v st) as [[] st1] eqn:Hassign.
      apply IH. by eapply mapAssign_addsMap.
    + unfold Store.ret at 1. by apply IH.
Qed.
End store_maps.

Section store_methods.
Context {V B : Type} `{!Inhabited B}.
Implicit Types (st : Store.store V B) (s : Store.slice) (b : Store.builder).
Implicit Types (r : option Store.loc) (l : Store.loc) (m : gmap string V).

Lemma mapAssign_arrays st l key value u st' :
  Store.mapAssign l key value st = (u, st') → Store.arrays st' = Store.arrays st.
Proof. by intros [= <- <-]. Qed.

Lemma copyRequired_arrays b l ks st u st' :
  Store.copyRequired b l ks st = (u, st') → Store.arrays st' = Store.arrays st.
Proof.
  unfold Store.copyRequired. revert st. induction ks as [|k ks IH]; intros st.
  - by intros [= <- <-].
  - cbn [Store.forEach]. unfold Store.bind at 1.
    unfold Store.bind at 1, Store.gets at 1.
    destruct (Store.mapContents st (Store.variablesRef b) !! k) as [v|].
    + destruct (Store.mapAssign l k v st) as [[] st1] eqn:Hassign.
      intros Hrest. rewrite (IH _ Hrest). by eapply mapAssign_arrays.
    + unfold Store.ret at 1. apply IH.
Qed.

Lemma same_arrays st st' s :
  Store.arrays st' = Store.arrays st →
  (Store.wfSlice st' s ↔ Store.wfSlice st s)
  ∧ Store.sliceContents st' s = Store.sliceContents st s.
Proof.
  unfold Store.wfSlice, Store.sliceContents. by intros ->.
Qed.

Lemma removeBody_loop gp st0 b text extra l items :
  Store.wfMap st0 (Store.variablesRef b) →
  ∀ cur m st cur' st',
    Store.addsMap st0 l m st → Store.wfSlice st cur → Store.freshIn st0 cur →
    Store.forEach items (Store.removeBody gp b text extra l) cur st
    = (cur', st') →
    let vars := Store.mapContents st0 (Store.variablesRef b) in
    let acc :=
      foldl (λ (acc : list (queryBuilderItem B) * gmap string V) q,
               if isRemoved text extra q then acc
               else (acc.1 ++ [q],
                     if 0 <? size vars
                     then copyRequired vars acc.2 (requiredVars q)
                     else acc.2))
            (Store.sliceContents st cur, m) items in
    Store.addsMap st0 l acc.2 st' ∧ Store.wfSlice st' cur'
    ∧ Store.freshIn st0 cur' ∧ Store.sliceContents st' cur' = acc.1.
Proof.
  intros Hwf. cbv zeta.
  destruct (0 <? size (Store.mapContents st0 (Store.variablesRef b))) eqn:Hsz;
    (induction items as [|q items IH];
     intros cur m st cur' st' Hadds Hcur Hfresh;
     [by intros [= <- <-]|]);
    cbn [Store.forEach foldl]; unfold Store.bind at 1;
    unfold Store.removeBody at 1;
    (destruct (isRemoved text extra q);
     [unfold Store.ret at 1; by apply IH|]);
    unfold Store.bind at 1;
    destruct (Store.append gp cur q st) as [cur1 st1] eqn:Happ;
    destruct (append_spec _ _ _ _ _ _ Hcur Happ) as (Hcur1 & Hmaps1 & Hcont1);
    destruct Hadds as (Harr & Hl & Hmaps);
    destruct (append_fresh gp st0 st cur q cur1 st1 Harr Hfresh Happ)
      as [Harr1 Hfresh1];
    assert (Hadds1 : Store.addsMap st0 l m st1)
      by (split_and!; [done..|]; by rewrite Hmaps1);
    unfold Store.bind at 1, Store.gets at 1;
    rewrite (addsMap_read st0 l m st1), Hsz by done;
    unfold Store.bind at 1; simpl fst; simpl snd; rewrite <- Hcont1.
  - destruct (Store.copyRequired b l (requiredVars q) st1) as [[] st2] eqn:Hcopy.
    unfold Store.ret at 1.
    destruct (same_arrays st1 st2 cur1 (copyRequired_arrays _ _ _ _ _ _ Hcopy))
      as [Hwf2 Hcont2].
    rewrite <- Hcont2. apply IH; [|by apply Hwf2|done].
    by eapply copyRequired_spec.
  - unfold Store.ret at 1. unfold Store.ret at 1. by apply IH.
Qed.

Lemma removeQueryBody_loop gp st0 text extra items :
  ∀ cur st cur' st',
    Store.arrays st0 ⊆ Store.arrays st → Store.maps st = Store.maps st0 →
    Store.wfSlice st cur → Store.freshIn st0 cur →
    Store.forEach items (Store.removeQueryBody gp text extra) cur st
    = (cur', st') →
    Store.arrays st0 ⊆ Store.arrays st' ∧ Store.maps st' = Store.maps st0
    ∧ Store.wfSlice st' cur' ∧ Store.freshIn st0 cur'
    ∧ Store.sliceContents st' cur'
      = foldl (λ nq q, if negb (String.eqb (query q) text)
                          && negb (sliceStringContains extra (query q))
                       then nq ++ [q] else nq)
              (Store.sliceContents st cur) items.
Proof.
  induction items as [|q items IH]; intros cur st cur' st' Harr Hmaps Hcur Hfresh.
  - by intros [= <- <-].
  - cbn [Store.forEach foldl]. unfold Store.bind at 1.
    unfold Store.removeQueryBody at 1.
    destruct (negb _ && negb _); [|unfold Store.ret at 1; by apply IH].
    destruct (Store.append gp cur q st) as [cur1 st1] eqn:Happ.
    destruct (append_spec _ _ _ _ _ _ Hcur Happ) as (Hcur1 & Hmaps1 & Hcont1).
    destruct (append_fresh gp st0 st cur q cur1 st1 Harr Hfresh Happ)
      as [Harr1 Hfresh1].
    rewrite <- Hcont1. apply IH; [done|congruence|done..].
Qed.

(** *** The methods *)

Theorem NewQueryBuilder_refines st b st' :
  Store.NewQueryBuilder st = (b, st') →
  Store.extends st st' ∧ Store.wf st' b
  ∧ Store.view st' b = NewQueryBuilder.
Proof.
  unfold Store.NewQueryBuilder, Store.bind.
  destruct (Store.makeMap st) as [l st1] eqn:Hmake. intros [= <- <-].
  apply makeMap_addsMap in Hmake.
  destruct (addsMap_new _ _ _ _ Hmake) as [Hwf Hcont].
  split_and!; [by eapply addsMap_extends| |].
  - split; [done|exact Hwf].
  - unfold Store.view. simpl Store.variablesRef. by rewrite Hcont.
Qed.

(** [Query] returns the extended builder and leaves its receiver as it
    was. *)
Theorem Query_refines gp st b text bind b' st' :
  Store.wf st b → Store.Query gp b text bind st = (b', st') →
  Store.wf st' b' ∧ Store.view st' b' = Query (Store.view st b) text bind
  ∧ Store.wf st' b ∧ Store.view st' b = Store.view st b.
Proof.
  intros [Hs Hr]. unfold Store.Query, Store.bind.
  destruct (Store.append gp _ _ st) as [qs st1] eqn:Happ. intros [= <- <-].
  destruct (append_spec _ _ _ _ _ _ Hs Happ) as (Hqs & Hmaps & Hcont).
  destruct (append_frame _ _ _ _ _ _ (Store.queriesRef b) Hs Happ Hs
              ltac:(right; done)) as [Hs' Hcont'].
  assert (Hr' : Store.wfMap st1 (Store.variablesRef b))
    by (unfold Store.wfMap in *; by rewrite Hmaps).
  assert (Hm : Store.mapContents st1 (Store.variablesRef b)
               = Store.mapContents st (Store.variablesRef b))
    by (unfold Store.mapContents; by rewrite Hmaps).
  unfold Store.view, Query. simpl. rewrite Hcont, Hcont', Hm.
  split_and!; done.
Qed.

Lemma setMapValue_spec st r key value r' st' :
  Store.wfMap st r → Store.setMapValue r key value st = (r', st') →
  Store.arrays st' = Store.arrays st ∧ Store.wfMap st' r'
  ∧ Store.mapContents st' r' = <[key := value]> (Store.mapContents st r)
  ∧ (∀ l, r = Some l → r' = Some l).
Proof.
  unfold Store.setMapValue, Store.bind, Store.mapAssign, Store.ret.
  destruct r as [l|]; simpl.
  - intros [m Hm] [= <- <-]. simpl. rewrite lookup_alter_eq, Hm. simpl.
    split_and!; [done|by eexists|done|done].
  - intros _ [= <- <-]. simpl. rewrite lookup_alter_eq, lookup_insert_eq.
    simpl. split_and!; [done|by eexists|done|done].
Qed.

Theorem Variable_refines st b key value b' st' :
  Store.wf st b → Store.Variable_ b key value st = (b', st') →
  Store.wf st' b'
  ∧ Store.view st' b' = Variable_ (Store.view st b) key value.
Proof.
  intros [Hs Hr]. unfold Store.Variable_, Store.bind.
  destruct (Store.setMapValue _ _ _ st) as [r' st1] eqn:Hset.
  intros [= <- <-].
  destruct (setMapValue_spec _ _ _ _ _ _ Hr Hset) as (Harr & Hr' & Hcont & _).
  destruct (same_arrays st st1 (Store.queriesRef b) Harr) as [Hwf Hsc].
  unfold Store.view, Variable_, setMapValue. simpl. rewrite Hsc, Hcont.
  split; [split; [by apply Hwf|done]|done].
Qed.

(** When the map of the receiver is not nil, [Variable] returns the
    receiver's own struct value, and the receiver now holds the entry. *)
Theorem Variable_writes_through st b key value b' st' l :
  Store.wf st b → Store.variablesRef b = Some l →
  Store.Variable_ b key value st = (b', st') →
  b' = b ∧ Store.view st' b = Variable_ (Store.view st b) key value.
Proof.
  intros Hwf Hl Hrun.
  destruct (Variable_refines _ _ _ _ _ _ Hwf Hrun) as [_ Hview].
  assert (b' = b) as ->; [|done].
  destruct Hwf as [_ Hr]. unfold Store.Variable_, Store.bind in Hrun.
  destruct (Store.setMapValue _ _ _ st) as [r' st1] eqn:Hset.
  injection Hrun as <- <-.
  destruct (setMapValue_spec _ _ _ _ _ _ Hr Hset) as (_ & _ & _ & Hsame).
  rewrite (Hsame l Hl). destruct b. simpl in *. by subst.
Qed.
End store_methods.

Section store_copying.
Context {V B : Type} `{!Inhabited B}.
Implicit Types (st : Store.store V B) (s : Store.slice) (b : Store.builder).
Implicit Types (r : option Store.loc) (l : Store.loc) (m : gmap string V).

Lemma copyEntries_arrays l entries st u st' :
  Store.copyEntries l entries st = (u, st') →
  Store.arrays st' = Store.arrays st.
Proof.
  unfold Store.copyEntries.
  revert st. induction entries as [|[k v] entries IH]; intros st.
  - by intros [= <- <-].
  - cbn [Store.forEach]. intros Hrest. by rewrite (IH _ Hrest).
Qed.

Lemma removeVariable_loop_arrays key extra l entries st u st' :
  Store.forEach entries (Store.removeVariableBody key extra l) tt st = (u, st') →
  Store.arrays st' = Store.arrays st.
Proof.
  revert st. induction entries as [|[k v] entries IH]; intros st.
  - by intros [= <- <-].
  - cbn [Store.forEach]. unfold Store.bind at 1.
    unfold Store.removeVariableBody at 1. simpl.
    destruct (negb _ && negb _); intros Hrest; by rewrite (IH _ Hrest).
Qed.

(** A store that adds one map over unchanged arrays keeps every builder. *)
Lemma addsMap_wf st0 l m st b :
  Store.addsMap st0 l m st → Store.wf st0 b →
  Store.wf st b ∧ Store.view st b = Store.view st0 b.
Proof. intros Hadds. apply view_extends. by eapply addsMap_extends. Qed.

Theorem Variables_refines ro st b vs b' st' :
  Store.wf st b → Store.wfMap st vs →
  Store.Variables_ ro b vs st = (b', st') →
  Store.extends st st' ∧ Store.wf st' b'
  ∧ Store.view st' b'
    = Variables_ ro (Store.view st b) (Store.mapContents st vs).
Proof.
  intros [Hs Hr] Hvs.
  unfold Store.Variables_, Store.mergeMap, Store.bind, Store.gets, Store.ret.
  destruct (Store.makeMap st) as [l st1] eqn:Hmake.
  apply makeMap_addsMap in Hmake.
  rewrite (addsMap_read st l ∅ st1) by done.
  destruct (Store.copyEntries l _ st1) as [[] st2] eqn:Hcopy1.
  pose proof (copyEntries_spec _ _ _ _ _ _ _ Hmake Hcopy1) as Hadds2.
  rewrite (addsMap_read st l _ st2 vs Hadds2) by done.
  destruct (Store.copyEntries l _ st2) as [[] st3] eqn:Hcopy2.
  pose proof (copyEntries_spec _ _ _ _ _ _ _ Hadds2 Hcopy2) as Hadds3.
  intros [= <- <-].
  destruct (addsMap_new _ _ _ _ Hadds3) as [Hwfl Hcont].
  destruct (sliceContents_weaken st st3 (Store.queriesRef b)) as [Hs3 Hsc];
    [by destruct Hadds3|done|].
  split_and!; [by eapply addsMap_extends|by split|].
  unfold Store.view, Variables_, mergeMap.
  cbn [Store.queriesRef Store.variablesRef queries variables].
  by rewrite Hsc, Hcont.
Qed.

Theorem RemoveVariable_refines ro st b key extra b' st' :
  Store.wf st b → Store.RemoveVariable ro b key extra st = (b', st') →
  Store.extends st st' ∧ Store.wf st' b'
  ∧ Store.view st' b' = RemoveVariable ro (Store.view st b) key extra.
Proof.
  intros [Hs Hr].
  unfold Store.RemoveVariable, Store.bind, Store.gets, Store.ret.
  destruct (Store.makeMap st) as [l st1] eqn:Hmake.
  apply makeMap_addsMap in Hmake.
  rewrite (addsMap_read st l ∅ st1) by done.
  destruct (Store.forEach _ _ tt st1) as [[] st2] eqn:Hloop.
  pose proof (removeVariable_loop _ _ _ _ _ _ _ _ _ Hmake Hloop) as Hadds2.
  intros [= <- <-].
  destruct (addsMap_new _ _ _ _ Hadds2) as [Hwfl Hcont].
  destruct (sliceContents_weaken st st2 (Store.queriesRef b)) as [Hs2 Hsc];
    [by destruct Hadds2|done|].
  split_and!; [by eapply addsMap_extends|by split|].
  unfold Store.view, RemoveVariable.
  cbn [Store.queriesRef Store.variablesRef queries variables].
  by rewrite Hsc, Hcont.
Qed.

Theorem Remove_refines gp st b text extra b' st' :
  Store.wf st b → Store.Remove gp b text extra st = (b', st') →
  Store.extends st st' ∧ Store.wf st' b'
  ∧ Store.view st' b' = Remove (Store.view st b) text extra.
Proof.
  intros [Hs Hr].
  unfold Store.Remove, Store.bind, Store.gets, Store.ret.
  destruct (Store.makeMap st) as [l st1] eqn:Hmake.
  apply makeMap_addsMap in Hmake.
  destruct (sliceContents_weaken st st1 (Store.queriesRef b)) as [_ Hitems];
    [by destruct Hmake|done|]. rewrite Hitems.
  destruct (Store.forEach _ _ Store.nilSlice st1) as [qs st2] eqn:Hloop.
  intros [= <- <-].
  destruct (removeBody_loop gp st b text extra l _ Hr Store.nilSlice ∅ st1
              qs st2 Hmake ltac:(done) ltac:(done) Hloop)
    as (Hadds2 & Hqs & _ & Hcont).
  destruct (addsMap_new _ _ _ _ Hadds2) as [Hwfl Hvars].
  split_and!; [by eapply addsMap_extends|by split|].
  unfold Store.view, Remove.
  cbn [Store.queriesRef Store.variablesRef queries variables].
  by rewrite Hcont, Hvars.
Qed.

Theorem RemoveQuery_refines gp st b text extra b' st' :
  Store.wf st b → Store.RemoveQuery gp b text extra st = (b', st') →
  Store.extends st st' ∧ Store.wf st' b'
  ∧ Store.view st' b' = RemoveQuery (Store.view st b) text extra.
Proof.
  intros [Hs Hr].
  unfold Store.RemoveQuery, Store.bind, Store.gets, Store.ret.
  destruct (Store.forEach _ _ Store.nilSlice st) as [qs st1] eqn:Hloop.
  intros [= <- <-].
  destruct (removeQueryBody_loop gp st text extra _ Store.nilSlice st qs st1
              ltac:(done) eq_refl ltac:(done) ltac:(done) Hloop)
    as (Harr & Hmaps & Hqs & _ & Hcont).
  assert (Hext : Store.extends st st1) by (split; [done|by rewrite Hmaps]).
  destruct (mapContents_weaken st st1 (Store.variablesRef b)) as [Hr1 Hmc];
    [by destruct Hext|done|].
  split_and!; [done|by split|].
  unfold Store.view, RemoveQuery.
  cbn [Store.queriesRef Store.variablesRef queries variables].
  by rewrite Hcont, Hmc.
Qed.

(** X24.  [Variables], [Remove], [RemoveQuery] and [RemoveVariable] write
    only into what they allocate: every builder value that was well-formed
    before the call denotes the same contents after it. *)
Corollary copying_methods_keep_snapshots gp ro st b0 b :
  Store.wf st b0 → Store.wf st b →
  (∀ vs, Store.wfMap st vs →
         Store.view (Store.Variables_ ro b vs st).2 b0 = Store.view st b0)
  ∧ (∀ text extra,
       Store.view (Store.Remove gp b text extra st).2 b0 = Store.view st b0
       ∧ Store.view (Store.RemoveQuery gp b text extra st).2 b0
         = Store.view st b0)
  ∧ (∀ key extra,
       Store.view (Store.RemoveVariable ro b key extra st).2 b0
       = Store.view st b0).
Proof.
  intros Hb0 Hb. split_and!.
  - intros vs Hvs.
    destruct (Store.Variables_ ro b vs st) as [b' st'] eqn:Hrun.
    destruct (Variables_refines _ _ _ _ _ _ Hb Hvs Hrun) as (Hext & _).
    by apply view_extends.
  - intros text extra. split.
    + destruct (Store.Remove gp b text extra st) as [b' st'] eqn:Hrun.
      destruct (Remove_refines _ _ _ _ _ _ _ Hb Hrun) as (Hext & _).
      by apply view_extends.
    + destruct (Store.RemoveQuery gp b text extra st) as [b' st'] eqn:Hrun.
      destruct (RemoveQuery_refines _ _ _ _ _ _ _ Hb Hrun) as (Hext & _).
      by apply view_extends.
  - intros key extra.
    destruct (Store.RemoveVariable ro b key extra st) as [b' st'] eqn:Hrun.
    destruct (RemoveVariable_refines _ _ _ _ _ _ _ Hb Hrun) as (Hext & _).
    by apply view_extends.
Qed.
End store_copying.

(** ** The claims about [Build] *)

(** C5.  With zero fragments, whatever the variable mapping holds, [Build]
    returns [errBuildQueryRequired] and neither a query list nor a variable
    map. *)
Theorem Build_no_query {V B} (ro : rangeOrder V) (vars : gmap string V) :
  Build (B := B) ro (mkBuilder [] vars) = BuildErr errBuildQueryRequired.
Proof. reflexivity. Qed.

(** C1.  With at least one fragment, [Build] fails with the mismatch error
    exactly when the number of declared variables differs from the number of
    required occurrences (duplicates counted), or the required occurrences
    are not empty and one of them is not a key of the mapping; the error
    carries the list of required names and a list of the declared keys. *)
Theorem Build_mismatch_iff {V B} (ro : rangeOrder V) (b : QueryBuilder V B) :
  queries b ≠ [] →
  (isMismatch (Build ro b) ↔
     size (variables b) ≠ length (requiredOccurrences b)
     ∨ (requiredOccurrences b ≠ []
        ∧ ∃ k, k ∈ requiredOccurrences b ∧ k ∉ declared (variables b)))
  ∧ (∀ want got,
       Build ro b = BuildErr (errMismatchedVariables want got) →
       want = requiredOccurrences b ∧ got ≡ₚ (map_to_list (variables b)).*1).
Proof.
  intros Hne. split.
  - split.
    + intros (want & got & Hb).
      destruct (Build_cases ro b Hne) as [[Hsz Hall]|[Hsz|(k & Hk & Hund)]].
      * by rewrite Build_ok in Hb.
      * by left.
      * right. split; [|by exists k]. intros Hnil. rewrite Hnil in Hk.
        by apply elem_of_nil in Hk.
    + intros Hbad. rewrite Build_mismatched; [by eexists _, _|done|tauto].
  - intros want got Hb.
    destruct (Build_cases ro b Hne) as [[Hsz Hall]|Hbad].
    + by rewrite Build_ok in Hb.
    + rewrite Build_mismatched in Hb by done. injection Hb as <- <-.
      split; [done|]. by rewrite rangeMap_perm.
Qed.

Lemma Build_mismatch_iff_witness :
  let b : QueryBuilder nat nat :=
    Variable_ (Variable_ (Query NewQueryBuilder "x($a)" 0) "a" 1) "b" 2 in
  queries b ≠ []
  ∧ Build (stdOrder nat) b = BuildErr (errMismatchedVariables ["a"] ["a"; "b"])
  ∧ (isMismatch (Build (stdOrder nat) b) ↔
       size (variables b) ≠ length (requiredOccurrences b)
       ∨ (requiredOccurrences b ≠ []
          ∧ ∃ k, k ∈ requiredOccurrences b ∧ k ∉ declared (variables b)))
  ∧ (∀ want got,
       Build (stdOrder nat) b = BuildErr (errMismatchedVariables want got) →
       want = requiredOccurrences b ∧ got ≡ₚ (map_to_list (variables b)).*1).
Proof.
  intros b. assert (Hne : queries b ≠ []) by discriminate.
  split; [exact Hne|]. split; [vm_compute; reflexivity|].
  exact (Build_mismatch_iff (stdOrder nat) b Hne).
Defined.

(** C2, as the code has it.  With at least one fragment and as many declared
    variables as required occurrences, [Build] fails with the mismatch error
    exactly when some required name is not a key of the mapping; when every
    required name is a key it succeeds, so a swap that keeps every required
    name declared (required [x] twice, keys [x] and [y]) goes undetected. *)
Theorem Build_equal_counts {V B} (ro : rangeOrder V) (b : QueryBuilder V B) :
  queries b ≠ [] →
  size (variables b) = length (requiredOccurrences b) →
  (isMismatch (Build ro b) ↔
     ∃ k, k ∈ requiredOccurrences b ∧ k ∉ declared (variables b))
  ∧ ((∀ k, k ∈ requiredOccurrences b → k ∈ declared (variables b)) →
     Build ro b = BuildOk (bindingsOf b) (variables b)).
Proof.
  intros Hne Hsz. split; [|by apply Build_ok]. split.
  - intros (want & got & Hb).
    destruct (Build_cases ro b Hne) as [[_ Hall]|[?|?]]; [|done..].
    by rewrite Build_ok in Hb.
  - intros Hk. rewrite Build_mismatched; [by eexists _, _|done|by right].
Qed.

Lemma Build_equal_counts_witness :
  queries swapped ≠ []
  ∧ size (variables swapped) = length (requiredOccurrences swapped)
  ∧ (isMismatch (Build (stdOrder nat) swapped) ↔
       ∃ k, k ∈ requiredOccurrences swapped ∧ k ∉ declared (variables swapped))
  ∧ ((∀ k, k ∈ requiredOccurrences swapped → k ∈ declared (variables swapped)) →
     Build (stdOrder nat) swapped
     = BuildOk (bindingsOf swapped) (variables swapped)).
Proof.
  assert (Hne : queries swapped ≠ []) by discriminate.
  assert (Hsz : size (variables swapped) = length (requiredOccurrences swapped))
    by (vm_compute; reflexivity).
  split; [exact Hne|]. split; [exact Hsz|].
  exact (Build_equal_counts (stdOrder nat) swapped Hne Hsz).
Defined.

Lemma Build_swap_undetected :
  size (variables swapped) = length (requiredOccurrences swapped)
  ∧ requiredOccurrences swapped = ["x"; "x"]
  ∧ (map_to_list (variables swapped)).*1 ≡ₚ ["x"; "y"]
  ∧ Build (stdOrder nat) swapped
    = BuildOk [("f(a: $x, b: $x)", 0)] (variables swapped)
  ∧ ¬ isMismatch (Build (stdOrder nat) swapped).
Proof.
  split_and!; try (vm_compute; reflexivity).
  - vm_compute. apply perm_swap.
  - intros (want & got & Hb). vm_compute in Hb. discriminate.
Qed.

(** C10.  When some required name occurs more than once across the
    fragments and the mapping holds exactly one entry per distinct required
    name, every required name is declared, yet there are fewer entries than
    occurrences and [Build] fails with the mismatch error. *)
Theorem Build_repeated_name {V B} (ro : rangeOrder V) (b : QueryBuilder V B) :
  ¬ NoDup (requiredOccurrences b) →
  declared (variables b) = list_to_set (requiredOccurrences b) →
  (∀ k, k ∈ requiredOccurrences b → k ∈ declared (variables b))
  ∧ size (variables b) < length (requiredOccurrences b)
  ∧ isMismatch (Build ro b).
Proof.
  intros Hdup Hdom.
  assert (Hlt : size (variables b) < length (requiredOccurrences b)).
  { rewrite <- size_dom. unfold declared in Hdom. rewrite Hdom.
    by apply size_list_to_set_dup. }
  split_and!; [|done|].
  - intros k Hk. rewrite Hdom. by apply elem_of_list_to_set.
  - assert (Hne : queries b ≠ []).
    { intros Hnil. apply Hdup. unfold requiredOccurrences. rewrite Hnil.
      constructor. }
    rewrite Build_mismatched; [by eexists _, _|done|left; lia].
Qed.

Lemma Build_repeated_name_witness :
  let b : QueryBuilder nat nat :=
    Variable_ (Query (Query NewQueryBuilder "a(id: $id)" 0) "b(id: $id)" 1)
              "id" 7 in
  ¬ NoDup (requiredOccurrences b)
  ∧ declared (variables b) = list_to_set (requiredOccurrences b)
  ∧ (∀ k, k ∈ requiredOccurrences b → k ∈ declared (variables b))
  ∧ size (variables b) < length (requiredOccurrences b)
  ∧ isMismatch (Build (stdOrder nat) b).
Proof.
  intros b.
  assert (Hdup : ¬ NoDup (requiredOccurrences b)).
  { intros [Hn _]%NoDup_cons. apply Hn. by left. }
  assert (Hdom : declared (variables b) = list_to_set (requiredOccurrences b))
    by (vm_compute; reflexivity).
  split; [exact Hdup|]. split; [exact Hdom|].
  exact (Build_repeated_name (stdOrder nat) b Hdup Hdom).
Defined.

(** C8, as the code has it.  With at least one fragment, when no fragment
    requires a name twice, the fragments have pairwise-disjoint needs and the
    mapping has exactly one entry per required name, [Build] succeeds: it
    returns the [(text, binding)] pairs in insertion order and the mapping
    itself, whose keys are the required names. *)
Theorem Build_round_trip {V B} (ro : rangeOrder V) (b : QueryBuilder V B) :
  queries b ≠ [] →
  Forall (λ q, NoDup (requiredVars q)) (queries b) →
  pairwiseDisjoint (queries b) →
  declared (variables b) = list_to_set (requiredOccurrences b) →
  Build ro b = BuildOk ((λ q, (query q, binding q)) <$> queries b) (variables b)
  ∧ ∀ k, k ∈ declared (variables b) ↔ requiredBy (queries b) k.
Proof.
  intros Hne Hnd Hdisj Hdom. split.
  - apply Build_ok; [done| |].
    + rewrite <- size_dom. unfold declared in Hdom. rewrite Hdom.
      apply size_list_to_set. by apply NoDup_concat_requiredVars.
    + intros k Hk. rewrite Hdom. by apply elem_of_list_to_set.
  - intros k. rewrite Hdom, elem_of_list_to_set.
    unfold requiredOccurrences, requiredBy.
    rewrite elem_of_concat, Exists_exists. split.
    + intros (ks & Hk & (q & -> & Hq)%list_elem_of_fmap). by exists q.
    + intros (q & Hq & Hk). exists (requiredVars q). split; [done|].
      by apply list_elem_of_fmap_2.
Qed.

Lemma Build_round_trip_witness :
  let b : QueryBuilder nat nat :=
    Variable_ (Query (Query NewQueryBuilder "user(id: $id)" 10) "person" 20)
              "id" 1 in
  queries b ≠ []
  ∧ Forall (λ q, NoDup (requiredVars q)) (queries b)
  ∧ pairwiseDisjoint (queries b)
  ∧ declared (variables b) = list_to_set (requiredOccurrences b)
  ∧ Build (stdOrder nat) b
    = BuildOk [("user(id: $id)", 10); ("person", 20)] {[ "id" := 1 ]}.
Proof.
  intros b.
  assert (Hne : queries b ≠ []) by discriminate.
  assert (Hnd : Forall (λ q, NoDup (requiredVars q)) (queries b)).
  { repeat constructor. by intros ?%elem_of_nil. }
  assert (Hdisj : pairwiseDisjoint (queries b)).
  { intros [|[|i]] [|[|j]] qi qj Hij Hi Hj; try done; simplify_eq/=;
      intros k Hk Hk'; by (apply elem_of_nil in Hk || apply elem_of_nil in Hk'). }
  assert (Hdom : declared (variables b) = list_to_set (requiredOccurrences b))
    by (vm_compute; reflexivity).
  split_and!; [exact Hne|exact Hnd|exact Hdisj|exact Hdom|].
  exact (proj1 (Build_round_trip (stdOrder nat) b Hne Hnd Hdisj Hdom)).
Defined.

Lemma Build_round_trip_fails_as_stated :
  let b : QueryBuilder nat nat :=
    Variable_ (Query NewQueryBuilder "f(a: $x, b: $x)" 0) "x" 7 in
  let e : QueryBuilder nat nat := NewQueryBuilder in
  (pairwiseDisjoint (queries b)
   ∧ declared (variables b) = list_to_set (requiredOccurrences b)
   ∧ Build (stdOrder nat) b = BuildErr (errMismatchedVariables ["x"; "x"] ["x"]))
  ∧ (pairwiseDisjoint (queries e)
     ∧ declared (variables e) = list_to_set (requiredOccurrences e)
     ∧ Build (stdOrder nat) e = BuildErr errBuildQueryRequired).
Proof.
  intros b e. split; split_and!; try (vm_compute; reflexivity).
  - intros [|i] [|j] qi qj Hij Hi Hj; done.
  - intros i j qi qj _ Hi. done.
Qed.

(** ** The claims about removal *)

(** C7.  [RemoveQuery] returns the variable mapping of the receiver as it
    is, and the fragments that the arguments do not name, in their order. *)
Theorem RemoveQuery_keeps_variables {V B}
    (b : QueryBuilder V B) (text : string) (extra : list string) :
  variables (RemoveQuery b text extra) = variables b
  ∧ queries (RemoveQuery b text extra)
    = filter (λ q, query q ∉ text :: extra) (queries b).
Proof. split; [done|]. apply RemoveQuery_queries. Qed.

(** C3, as the code has it.  [Remove] returns the fragments that the
    arguments do not name, in their order, and the entries of the mapping
    whose names some remaining fragment requires: a name that no remaining
    fragment requires is removed, whether or not a removed fragment required
    it. *)
Theorem Remove_restricts {V B}
    (b : QueryBuilder V B) (text : string) (extra : list string) :
  let kept := filter (λ q, query q ∉ text :: extra) (queries b) in
  queries (Remove b text extra) = kept
  ∧ variables (Remove b text extra)
    = filter (λ kv, requiredBy kept kv.1) (variables b)
  ∧ ∀ k, variables (Remove b text extra) !! k
         = if decide (requiredBy kept k) then variables b !! k else None.
Proof.
  intros kept. split_and!.
  - apply Remove_queries.
  - apply Remove_variables.
  - intros k. rewrite Remove_variables, map_lookup_filter.
    fold (keptQueries text extra (queries b)). fold kept.
    destruct (variables b !! k); simpl; case_decide; try case_guard; done.
Qed.

Lemma Remove_drops_unrequired :
  let b : QueryBuilder nat nat :=
    Variable_ (Query NewQueryBuilder "person" 0) "z" 5 in
  removedQueries "other" [] (queries b) = []
  ∧ specRemoveVariables b "other" [] !! "z" = Some 5
  ∧ variables (Remove b "other" []) !! "z" = None
  ∧ variables (Remove b "other" []) ≠ specRemoveVariables b "other" [].
Proof.
  intros b.
  assert (Hspec : specRemoveVariables b "other" [] !! "z" = Some 5).
  { unfold specRemoveVariables. apply map_lookup_filter_Some. split; [done|].
    intros [Hrem _]. by apply Exists_nil in Hrem. }
  assert (Hcode : variables (Remove b "other" []) !! "z" = None)
    by (vm_compute; reflexivity).
  split_and!; [done..|]. intros Heq. rewrite Heq in Hcode. congruence.
Qed.

(** C4, as the code has it.  When the texts name no stored fragment,
    [RemoveQuery] returns the receiver's contents, and [Remove] returns the
    same fragments with the entries of the mapping that some fragment
    requires, hence the receiver's contents when every declared variable is
    required; when the names are not keys of the mapping, [RemoveVariable]
    returns the receiver's contents.  All three are total. *)
Theorem remove_absent {V B} (ro : rangeOrder V) (b : QueryBuilder V B)
    (text : string) (extra : list string) (key : string) (more : list string) :
  (∀ q, q ∈ queries b → query q ∉ text :: extra) →
  (∀ k, k ∈ key :: more → k ∉ declared (variables b)) →
  RemoveQuery b text extra = b
  ∧ RemoveVariable ro b key more = b
  ∧ queries (Remove b text extra) = queries b
  ∧ variables (Remove b text extra)
    = filter (λ kv, requiredBy (queries b) kv.1) (variables b)
  ∧ ((∀ k, k ∈ declared (variables b) → requiredBy (queries b) k) →
     Remove b text extra = b).
Proof.
  intros Htext Hkeys.
  assert (Hkept : keptQueries text extra (queries b) = queries b).
  { unfold keptQueries. apply filter_all, Htext. }
  assert (Hq : queries (Remove b text extra) = queries b)
    by by rewrite Remove_queries.
  assert (Hv : variables (Remove b text extra)
               = filter (λ kv, requiredBy (queries b) kv.1) (variables b))
    by by rewrite Remove_variables, Hkept.
  split_and!; [| |done|done|].
  - pose proof (RemoveQuery_queries b text extra) as Hrq.
    rewrite Hkept in Hrq. destruct b as [qs vars]. unfold RemoveQuery in *.
    simpl in *. by rewrite Hrq.
  - pose proof (RemoveVariable_variables ro b key more) as Hrv.
    rewrite map_filter_id in Hrv.
    + destruct b as [qs vars]. unfold RemoveVariable in *. simpl in *.
      by rewrite Hrv.
    + intros k v Hk Hin. simpl in Hin. apply (Hkeys k Hin).
      apply elem_of_dom. eauto.
  - intros Hall. rewrite map_filter_id in Hv.
    + destruct b as [qs vars]. unfold Remove in *. simpl in *.
      by rewrite Hq, Hv.
    + intros k v Hk. apply Hall, elem_of_dom. eauto.
Qed.

Lemma remove_absent_witness :
  let b : QueryBuilder nat nat :=
    Variable_ (Query (Query NewQueryBuilder "user(id: $id)" 10) "person" 20)
              "id" 1 in
  (∀ q, q ∈ queries b → query q ∉ ["pet"; "owner"])
  ∧ (∀ k, k ∈ ["where"; "limit"] → k ∉ declared (variables b))
  ∧ RemoveQuery b "pet" ["owner"] = b
  ∧ RemoveVariable (stdOrder nat) b "where" ["limit"] = b
  ∧ Remove b "pet" ["owner"] = b.
Proof.
  intros b.
  assert (Htext : ∀ q, q ∈ queries b → query q ∉ ["pet"; "owner"]).
  { intros q Hq. cbn in Hq. rewrite !elem_of_cons, elem_of_nil in Hq.
    destruct Hq as [->|[->|[]]]; intros Hin; cbn in Hin;
      rewrite !elem_of_cons, elem_of_nil in Hin;
      destruct Hin as [?|[?|[]]]; discriminate. }
  assert (Hkeys : ∀ k, k ∈ ["where"; "limit"] → k ∉ declared (variables b)).
  { intros k Hk. rewrite !elem_of_cons, elem_of_nil in Hk.
    destruct Hk as [->|[->|[]]]; intros [v Hv]%elem_of_dom;
      vm_compute in Hv; discriminate. }
  destruct (remove_absent (stdOrder nat) b "pet" ["owner"] "where" ["limit"]
              Htext Hkeys) as (Hrq & Hrv & _ & _ & Hr).
  split_and!; [exact Htext|exact Hkeys|exact Hrq|exact Hrv|].
  apply Hr. intros k Hk.
  assert (k = "id") as ->.
  { unfold declared in Hk. apply elem_of_dom in Hk as [v Hv].
    change (variables b) with (<["id" := 1]> (∅ : gmap string nat)) in Hv.
    apply lookup_insert_Some in Hv as [[<- _]|[_ Hv]]; [done|].
    by rewrite lookup_empty in Hv. }
  apply Exists_cons_hd. vm_compute. left.
Defined.

Lemma Remove_absent_not_noop :
  let b : QueryBuilder nat nat :=
    Variable_ (Variable_ (Query NewQueryBuilder "user(id: $id)" 10) "id" 1)
              "unused" 2 in
  (∀ q, q ∈ queries b → query q ∉ ["person"])
  ∧ variables b !! "unused" = Some 2
  ∧ variables (Remove b "person" []) !! "unused" = None
  ∧ variables (Remove b "person" []) ≠ variables b.
Proof.
  intros b.
  assert (Hb : variables b !! "unused" = Some 2) by (vm_compute; reflexivity).
  assert (Hr : variables (Remove b "person" []) !! "unused" = None)
    by (vm_compute; reflexivity).
  split_and!; [|done..|].
  - intros q Hq. cbn in Hq. rewrite !elem_of_cons, elem_of_nil in Hq.
    destruct Hq as [->|[]]. intros Hin. cbn in Hin.
    rewrite !elem_of_cons, elem_of_nil in Hin. destruct Hin as [?|[]].
    discriminate.
  - intros Heq. rewrite Heq in Hr. congruence.
Qed.

(** ** The claim about the variable scan *)

(** C6.  The [requiredVars] that [Query] stores for a text are the names of
    the variable tokens of the text: there is a list of the (offset, name)
    pairs of all tokens, by increasing offset, whose names, in that order and
    with repetitions, are the stored list. *)
Theorem Query_requiredVars {V B}
    (b : QueryBuilder V B) (text : string) (bind : B) :
  ∃ occ : list (nat * string),
    StronglySorted lt occ.*1
    ∧ (∀ i n, (i, n) ∈ occ ↔ tokenAt text i n)
    ∧ findAllVariableNames text = occ.*2
    ∧ queries (Query b text bind) = queries b ++ [mkItem text bind occ.*2].
Proof.
  exists (tokensFrom 0 text). split_and!.
  - apply tokensFrom_sorted.
  - intros i n. rewrite tokensFrom_spec. unfold tokenAt.
    split; intros (pre & post & ? & ? & ?); exists pre, post; split_and!;
      done || lia || tauto.
  - apply findAllFrom_tokens. lia.
  - unfold Query, findAllVariableNames. simpl.
    by rewrite (findAllFrom_tokens text 0 0) by lia.
Qed.

(** ** The claim about snapshots *)

(** C9, which the code breaks.  [b] is built by [NewQueryBuilder] and one
    [Query]; [c] and [d] are derived from [b] by [Variable].  Deriving [c]
    changes the variable mapping and the [Build] result of the ancestor [b],
    and deriving [d] changes the mapping of the sibling [c]: the three
    values share one map, into which [setMapValue] writes. *)
Theorem Variable_changes_receiver :
  let st0 : Store.store nat nat := Store.emptyStore in
  let '(b0, st1) := Store.NewQueryBuilder st0 in
  let '(b, st2) := Store.Query Store.doubling b0 "person" 0 st1 in
  let '(c, st3) := Store.Variable_ b "id" 1 st2 in
  let '(d, st4) := Store.Variable_ b "limit" 2 st3 in
  (Store.view st2 b = mkBuilder [mkItem "person" 0 []] ∅
   ∧ (Store.Build (stdOrder nat) b st2).1 = BuildOk [("person", 0)] ∅)
  ∧ (Store.view st3 b = mkBuilder [mkItem "person" 0 []] {[ "id" := 1 ]}
     ∧ (Store.Build (stdOrder nat) b st3).1
       = BuildErr (errMismatchedVariables [] ["id"]))
  ∧ (variables (Store.view st3 c) = {[ "id" := 1 ]}
     ∧ variables (Store.view st4 c) = <[ "limit" := 2 ]> {[ "id" := 1 ]}).
Proof. vm_compute. repeat split. Qed.

(** [Query] has the same defect when the backing array has room: [b] holds
    three fragments in an array of capacity four, and the siblings [c] and
    [d] are both written into its fourth cell. *)
Lemma Query_overwrites_sibling :
  let st0 : Store.store nat nat := Store.emptyStore in
  let '(b0, st1) := Store.NewQueryBuilder st0 in
  let '(b1, st2) := Store.Query Store.doubling b0 "a" 1 st1 in
  let '(b2, st3) := Store.Query Store.doubling b1 "b" 2 st2 in
  let '(b, st4) := Store.Query Store.doubling b2 "c" 3 st3 in
  let '(c, st5) := Store.Query Store.doubling b "d" 4 st4 in
  let '(d, st6) := Store.Query Store.doubling b "e" 5 st5 in
  Store.scap (Store.queriesRef b) = 4
  ∧ query <$> queries (Store.view st5 c) = ["a"; "b"; "c"; "d"]
  ∧ query <$> queries (Store.view st6 c) = ["a"; "b"; "c"; "e"]
  ∧ query <$> queries (Store.view st6 b) = ["a"; "b"; "c"].
Proof. vm_compute. repeat split. Qed.


(** * Further properties of the code *)

(** ** The variable scan, compositionally *)

Lemma nameRun_app_stop r c s :
  isNameChar c = false → nameRun (r ++ String c s) = nameRun r.
Proof.
  intros Hc. induction r as [|d r IH]; simpl.
  - by rewrite Hc.
  - destruct (isNameChar d); [by rewrite IH|done].
Qed.

Lemma matchHere_app_stop d r c s :
  isNameChar c = false →
  matchHere (String d r ++ String c s) = matchHere (String d r).
Proof.
  intros Hc. destruct r as [|c' r]; simpl.
  - assert (isNameStart c = false) as ->; [|by rewrite andb_false_r].
    destruct (isNameStart c) eqn:Hs; [|done].
    apply isNameStart_isNameChar in Hs. congruence.
  - by rewrite nameRun_app_stop.
Qed.

Lemma tokensFrom_app_stop i s1 c s2 :
  isNameChar c = false →
  tokensFrom i (s1 ++ String c s2)
  = tokensFrom i s1 ++ tokensFrom (i + String.length s1) (String c s2).
Proof.
  intros Hc. revert i. induction s1 as [|d r IH]; intros i.
  - simpl String.length. by rewrite Nat.add_0_r.
  - change (String d r ++ String c s2)%string
      with (String d (r ++ String c s2)).
    rewrite !(tokensFrom_cons i d).
    change (String d (r ++ String c s2))
      with (String d r ++ String c s2)%string.
    rewrite matchHere_app_stop by done. rewrite IH.
    simpl String.length. replace (S i + String.length r) with (i + S (String.length r)) by lia.
    by destruct (matchHere (String d r)).
Qed.

Lemma nameRun_length_le r : String.length (nameRun r) ≤ String.length r.
Proof.
  induction r as [|c r IH]; simpl; [done|].
  destruct (isNameChar c); simpl; lia.
Qed.

Lemma findAllFrom_skip n post :
  findAllFrom (String.length n) (n ++ post) = findAllFrom 0 post.
Proof.
  induction n as [|c n IH]; simpl; [|done].
  by destruct post.
Qed.

Lemma findAllFrom_fits k s :
  sum_list ((λ n, S (String.length n)) <$> findAllFrom k s) + k ≤ String.length s
  ∨ (String.length s < k ∧ findAllFrom k s = []).
Proof.
  revert k. induction s as [|c r IH]; intros k.
  - destruct k; simpl; [left; lia|right; split; [lia|done]].
  - destruct k as [|k].
    + left. rewrite findAllFrom_cons.
      destruct (matchHere (String c r)) as [n|] eqn:Hm.
      * rewrite fmap_cons. simpl sum_list. simpl String.length.
        destruct (IH (String.length n)) as [Hle|[Hlt Hnil]]; [lia|].
        rewrite Hnil. simpl.
        destruct r as [|c' r']; simpl in Hm; [done|].
        destruct (isDollar c && isNameStart c'); [|done].
        injection Hm as <-. simpl in Hlt.
        pose proof (nameRun_length_le r'). lia.
      * destruct (IH 0) as [Hle|[Hlt _]]; simpl; lia.
    + change (findAllFrom (S k) (String c r)) with (findAllFrom k r).
      destruct (IH k) as [Hle|[Hlt Hnil]]; simpl; [left; lia|right; split; [lia|done]].
Qed.

(** X1.  A token at the head of a text: when [n] is a name and the text
    [post] after it does not continue the name, the scan of [$n] followed by
    [post] returns [n] and then what the scan of [post] returns. *)
Theorem findAllVariableNames_token (n post : string) :
  isName n → endsName post →
  findAllVariableNames (String "$" (n ++ post)) = n :: findAllVariableNames post.
Proof.
  intros (c & r & -> & Hc & Hr) Hpost. unfold findAllVariableNames.
  change (String c r ++ post)%string with (String c (r ++ post)).
  rewrite findAllFrom_cons.
  assert (Hm : matchHere (String "$" (String c (r ++ post))) = Some (String c r)).
  { simpl. rewrite Hc. simpl. by rewrite nameRun_unique. }
  rewrite Hm. f_equal.
  change (String c (r ++ post)) with (String c r ++ post)%string.
  apply findAllFrom_skip.
Qed.

Lemma findAllVariableNames_token_witness :
  isName "id" ∧ endsName ", n: $n)"
  ∧ findAllVariableNames "$id, n: $n)" = "id" :: findAllVariableNames ", n: $n)".
Proof.
  assert (Hn : isName "id").
  { exists "i"%char, "d". split_and!; [done..|]. repeat constructor. }
  assert (Hp : endsName ", n: $n)") by reflexivity.
  split_and!; [exact Hn|exact Hp|].
  exact (findAllVariableNames_token "id" ", n: $n)" Hn Hp).
Defined.

(** X2.  The scan splits at every character that is not a name character:
    no match spans it, so the names of [s1] followed by [c] and [s2] are the
    names of [s1] and then those of the rest. *)
Theorem findAllVariableNames_app (s1 : string) (c : ascii) (s2 : string) :
  isNameChar c = false →
  findAllVariableNames (s1 ++ String c s2)
  = findAllVariableNames s1 ++ findAllVariableNames (String c s2).
Proof.
  intros Hc. unfold findAllVariableNames.
  rewrite (findAllFrom_tokens (s1 ++ String c s2) 0 0) by lia.
  rewrite (findAllFrom_tokens s1 0 0) by lia.
  rewrite (findAllFrom_tokens (String c s2) 0 (0 + String.length s1)) by lia.
  by rewrite tokensFrom_app_stop, fmap_app.
Qed.

Lemma findAllVariableNames_app_witness :
  isNameChar " " = false
  ∧ findAllVariableNames ("a(x: $x)" ++ String " " "b(y: $y)")
    = findAllVariableNames "a(x: $x)" ++ findAllVariableNames (String " " "b(y: $y)").
Proof.
  assert (Hc : isNameChar " " = false) by reflexivity.
  split; [exact Hc|].
  exact (findAllVariableNames_app "a(x: $x)" " " "b(y: $y)" Hc).
Defined.

(** X3.  Every string that [findAllVariableNames] returns is a name, and
    the matches do not overlap: the returned names, each counted with its
    dollar sign, fit in the length of the text. *)
Theorem findAllVariableNames_fit (text : string) :
  Forall isName (findAllVariableNames text)
  ∧ sum_list ((λ n, S (String.length n)) <$> findAllVariableNames text)
    ≤ String.length text.
Proof.
  split.
  - unfold findAllVariableNames. rewrite (findAllFrom_tokens text 0 0) by lia.
    apply Forall_forall. intros n [[i n'] [-> Hin]]%list_elem_of_fmap.
    apply tokensFrom_spec in Hin as (? & ? & _ & _ & Hn & _). done.
  - destruct (findAllFrom_fits 0 text) as [Hle|[Hlt _]]; [|lia].
    unfold findAllVariableNames. lia.
Qed.

(** ** The methods, composed *)

Section more_methods.
Context {V B : Type}.
Implicit Types (b : QueryBuilder V B) (q : queryBuilderItem B).
Implicit Types (qs : list (queryBuilderItem B)).
Implicit Types (vars nv : gmap string V) (ro : rangeOrder V).

Lemma builder_eq b b' :
  queries b = queries b' → variables b = variables b' → b = b'.
Proof. destruct b, b'. simpl. by intros -> ->. Qed.

Lemma foldl_Variable b (l : list (string * V)) :
  foldl (λ acc kv, Variable_ acc kv.1 kv.2) b l
  = mkBuilder (queries b)
      (foldl (λ r kv, setMapValue r kv.1 kv.2) (variables b) l).
Proof.
  revert b. induction l as [|[k v] l IH]; intros b; simpl.
  - by destruct b.
  - by rewrite IH.
Qed.

Lemma keptQueries_twice text extra text' extra' qs :
  keptQueries text' extra' (keptQueries text extra qs)
  = keptQueries text (extra ++ text' :: extra') qs.
Proof.
  unfold keptQueries. rewrite list_filter_filter. apply list_filter_iff.
  intros q. unfold named. rewrite !elem_of_cons, elem_of_app, elem_of_cons.
  tauto.
Qed.

Lemma keptQueries_idemp text extra qs :
  keptQueries text extra (keptQueries text extra qs) = keptQueries text extra qs.
Proof.
  unfold keptQueries. rewrite list_filter_filter. apply list_filter_iff.
  intros q. tauto.
Qed.

Lemma requiredBy_kept text extra qs k :
  requiredBy (keptQueries text extra qs) k → requiredBy qs k.
Proof.
  unfold requiredBy, keptQueries. rewrite !Exists_exists.
  intros (q & [_ Hq]%list_elem_of_filter & Hk). eauto.
Qed.

Lemma requiredBy_occurrences qs k :
  requiredBy qs k ↔ k ∈ concat (requiredVars <$> qs).
Proof.
  unfold requiredBy. rewrite elem_of_concat, Exists_exists. split.
  - intros (q & Hq & Hk). exists (requiredVars q). split; [done|].
    by apply list_elem_of_fmap_2.
  - intros (ks & Hk & (q & -> & Hq)%list_elem_of_fmap). by exists q.
Qed.

Lemma filter_filter_map (P Q : string * V → Prop)
    `{!∀ x, Decision (P x)} `{!∀ x, Decision (Q x)} vars :
  (∀ x, P x → Q x) → filter P (filter Q vars) = filter P vars.
Proof.
  intros HPQ. apply map_eq. intros k. rewrite !map_lookup_filter.
  destruct (vars !! k) as [v|]; simpl; [|done].
  destruct (decide (Q (k, v))) as [HQ|HQ].
  - rewrite (option_guard_True (Q (k, v))) by done. done.
  - rewrite (option_guard_False (Q (k, v))) by done. simpl.
    rewrite option_guard_False; [done|]. intros HP. by apply HQ, HPQ.
Qed.
End more_methods.

(** X4.  [sliceStringContains] decides membership: it returns [true]
    exactly when the value is an element of the slice. *)
Theorem sliceStringContains_decides (slice : list string) (val : string) :
  sliceStringContains slice val = bool_decide (val ∈ slice).
Proof.
  destruct (sliceStringContains slice val) eqn:Hc; symmetry.
  - by apply bool_decide_eq_true, sliceStringContains_elem.
  - apply bool_decide_eq_false. rewrite <- sliceStringContains_elem. congruence.
Qed.

(** X5.  [Variables] is [Variable] applied to every entry of the argument,
    in whatever order the entries are visited: in the result a name of the
    argument has the argument's value, every other name has the receiver's,
    and the fragments are the receiver's.  The orders in which [mergeMap]
    ranges over its two maps do not show in the result. *)
Theorem Variables_folds_Variable {V B}
    (ro ro' : rangeOrder V) (b : QueryBuilder V B) (vs : gmap string V) :
  Variables_ ro b vs
  = foldl (λ acc kv, Variable_ acc kv.1 kv.2) b (rangeMap ro' vs)
  ∧ ∀ k, variables (Variables_ ro b vs) !! k
         = match vs !! k with Some v => Some v | None => variables b !! k end.
Proof.
  split.
  - rewrite foldl_Variable, foldl_setMapValue, list_to_map_range.
    apply builder_eq; [done|]. apply Variables_variables.
  - intros k. rewrite Variables_variables, lookup_union.
    destruct (vs !! k), (variables b !! k); done.
Qed.

(** X6.  [RemoveVariable] keeps the fragments, and in its mapping a name is
    absent when it is one of the arguments and has the receiver's entry
    otherwise, whatever the order of the range loop. *)
Theorem RemoveVariable_lookup {V B}
    (ro : rangeOrder V) (b : QueryBuilder V B) (key : string)
    (extra : list string) :
  queries (RemoveVariable ro b key extra) = queries b
  ∧ ∀ k, variables (RemoveVariable ro b key extra) !! k
         = if decide (k ∈ key :: extra) then None else variables b !! k.
Proof.
  split; [done|]. intros k.
  rewrite RemoveVariable_variables, map_lookup_filter.
  destruct (variables b !! k) as [v|]; simpl.
  - case_decide; case_guard; simpl in *; done.
  - by case_decide.
Qed.

(** X7.  [RemoveVariable] undoes [Variable]: when none of the names given
    to [RemoveVariable] was a key of the receiver, declaring the first of
    them and then removing them gives the receiver's contents back. *)
Theorem RemoveVariable_undoes_Variable {V B}
    (ro : rangeOrder V) (b : QueryBuilder V B) (key : string) (value : V)
    (extra : list string) :
  (∀ k, k ∈ key :: extra → variables b !! k = None) →
  RemoveVariable ro (Variable_ b key value) key extra = b.
Proof.
  intros Hfree. apply builder_eq; [done|].
  rewrite RemoveVariable_variables. apply map_eq. intros k.
  rewrite map_lookup_filter. unfold Variable_, setMapValue. simpl.
  destruct (decide (k = key)) as [->|Hne].
  - rewrite lookup_insert_eq. simpl. rewrite option_guard_False.
    + symmetry. apply Hfree. by left.
    + intros Hn. apply Hn. by left.
  - rewrite lookup_insert_ne by done.
    destruct (variables b !! k) as [v|] eqn:Hk; [|done]. simpl.
    rewrite option_guard_True; [done|]. intros Hin.
    rewrite (Hfree k Hin) in Hk. done.
Qed.

Lemma RemoveVariable_undoes_Variable_witness :
  let b : QueryBuilder nat nat :=
    Variable_ (Query NewQueryBuilder "user(id: $id)" 0) "id" 1 in
  (∀ k, k ∈ ["limit"; "offset"] → variables b !! k = None)
  ∧ RemoveVariable (stdOrder nat) (Variable_ b "limit" 5) "limit" ["offset"] = b.
Proof.
  intros b.
  assert (Hfree : ∀ k, k ∈ ["limit"; "offset"] → variables b !! k = None).
  { intros k Hk. rewrite !elem_of_cons, elem_of_nil in Hk.
    destruct Hk as [->|[->|[]]]; vm_compute; reflexivity. }
  split; [exact Hfree|].
  exact (RemoveVariable_undoes_Variable (stdOrder nat) b "limit" 5 ["offset"] Hfree).
Defined.

(** X8.  Two removals in a row are one removal of all the texts (or names)
    given to either, for [RemoveQuery], for [Remove] and for
    [RemoveVariable]. *)
Theorem removals_compose {V B}
    (ro ro' ro'' : rangeOrder V) (b : QueryBuilder V B)
    (t1 : string) (e1 : list string) (t2 : string) (e2 : list string) :
  RemoveQuery (RemoveQuery b t1 e1) t2 e2 = RemoveQuery b t1 (e1 ++ t2 :: e2)
  ∧ Remove (Remove b t1 e1) t2 e2 = Remove b t1 (e1 ++ t2 :: e2)
  ∧ RemoveVariable ro' (RemoveVariable ro b t1 e1) t2 e2
    = RemoveVariable ro'' b t1 (e1 ++ t2 :: e2).
Proof.
  split_and!.
  - apply builder_eq; [|done].
    by rewrite !RemoveQuery_queries, keptQueries_twice.
  - apply builder_eq.
    + by rewrite !Remove_queries, keptQueries_twice.
    + rewrite !Remove_variables, !Remove_queries, keptQueries_twice.
      apply (filter_filter_map (λ kv, requiredBy _ kv.1) (λ kv, requiredBy _ kv.1)).
      intros [k v]. simpl. rewrite <- keptQueries_twice.
      apply requiredBy_kept.
  - apply builder_eq; [done|].
    rewrite !RemoveVariable_variables. rewrite map_filter_filter.
    apply map_filter_ext. intros k v _. simpl.
    rewrite !elem_of_cons, elem_of_app, elem_of_cons. tauto.
Qed.

(** X9.  [RemoveQuery], [Remove] and [RemoveVariable] are idempotent:
    the same call on the result changes nothing. *)
Theorem removals_idempotent {V B}
    (ro ro' : rangeOrder V) (b : QueryBuilder V B)
    (text : string) (extra : list string) :
  RemoveQuery (RemoveQuery b text extra) text extra = RemoveQuery b text extra
  ∧ Remove (Remove b text extra) text extra = Remove b text extra
  ∧ RemoveVariable ro' (RemoveVariable ro b text extra) text extra
    = RemoveVariable ro b text extra.
Proof.
  split_and!.
  - apply builder_eq; [|done].
    by rewrite !RemoveQuery_queries, keptQueries_idemp.
  - apply builder_eq.
    + by rewrite !Remove_queries, keptQueries_idemp.
    + rewrite (Remove_variables (Remove b text extra)), Remove_queries,
        keptQueries_idemp, Remove_variables.
      by apply (filter_filter_map (λ kv, requiredBy _ kv.1)
                                  (λ kv, requiredBy _ kv.1)).
  - apply builder_eq; [done|].
    rewrite !RemoveVariable_variables. rewrite map_filter_filter.
    apply map_filter_ext. intros k v _. simpl. tauto.
Qed.

(** X10.  [Remove] and [RemoveQuery] keep the same fragments; [Remove]
    never adds a variable, so its mapping is included in the one that
    [RemoveQuery] keeps; and [Remove] after [RemoveQuery] with the same texts
    is [Remove]. *)
Theorem Remove_after_RemoveQuery {V B}
    (b : QueryBuilder V B) (text : string) (extra : list string) :
  Remove (RemoveQuery b text extra) text extra = Remove b text extra
  ∧ queries (Remove b text extra) = queries (RemoveQuery b text extra)
  ∧ variables (Remove b text extra) ⊆ variables (RemoveQuery b text extra).
Proof.
  split_and!.
  - apply builder_eq.
    + by rewrite !Remove_queries, RemoveQuery_queries, keptQueries_idemp.
    + by rewrite !Remove_variables, RemoveQuery_queries, keptQueries_idemp.
  - by rewrite Remove_queries, RemoveQuery_queries.
  - rewrite Remove_variables. apply map_filter_subseteq.
Qed.

Lemma filter_none {A} (P : A → Prop) `{!∀ x, Decision (P x)} (l : list A) :
  (∀ x, x ∈ l → ¬ P x) → filter P l = [].
Proof.
  induction l as [|x l IH]; intros Hl; [done|].
  rewrite filter_cons_False by (apply Hl; by left).
  apply IH. intros y Hy. apply Hl. by right.
Qed.

(** X11.  When the texts name every fragment, [Remove] returns the
    contents of [NewQueryBuilder] (no fragment, no variable), on which
    [Build] fails with [errBuildQueryRequired]. *)
Theorem Remove_everything {V B}
    (ro : rangeOrder V) (b : QueryBuilder V B)
    (text : string) (extra : list string) :
  (∀ q, q ∈ queries b → query q ∈ text :: extra) →
  Remove b text extra = NewQueryBuilder
  ∧ Build ro (Remove b text extra) = BuildErr errBuildQueryRequired.
Proof.
  intros Hall.
  assert (Hq : queries (Remove b text extra) = []).
  { rewrite Remove_queries. unfold keptQueries. apply filter_none.
    intros q Hq Hn. by apply Hn, Hall. }
  split; [|by apply Build_empty].
  apply builder_eq; [done|].
  rewrite Remove_variables, <- Remove_queries, Hq.
  unfold NewQueryBuilder. cbn [variables].
  apply map_eq. intros k. rewrite map_lookup_filter, lookup_empty.
  destruct (variables b !! k) as [v|]; [|done]. cbn [mbind option_bind].
  rewrite option_guard_False; [done|]. by intros ?%Exists_nil.
Qed.

Lemma Remove_everything_witness :
  let b : QueryBuilder nat nat :=
    Variable_ (Query (Query NewQueryBuilder "user(id: $id)" 0) "pet" 1) "id" 7 in
  (∀ q, q ∈ queries b → query q ∈ ["pet"; "user(id: $id)"])
  ∧ Remove b "pet" ["user(id: $id)"] = NewQueryBuilder
  ∧ Build (stdOrder nat) (Remove b "pet" ["user(id: $id)"])
    = BuildErr errBuildQueryRequired.
Proof.
  intros b.
  assert (Hall : ∀ q, q ∈ queries b → query q ∈ ["pet"; "user(id: $id)"]).
  { apply Forall_forall. constructor; [|constructor; [|constructor]].
    - apply list_elem_of_further, list_elem_of_here.
    - apply list_elem_of_here. }
  split; [exact Hall|].
  exact (Remove_everything (stdOrder nat) b "pet" ["user(id: $id)"] Hall).
Defined.

(** ** [Build] after each method *)

Section build_facts.
Context {V B : Type}.
Implicit Types (b : QueryBuilder V B) (q : queryBuilderItem B).
Implicit Types (qs : list (queryBuilderItem B)).
Implicit Types (vars nv : gmap string V) (ro : rangeOrder V).

Lemma Build_ok_inv ro b query vars :
  Build ro b = BuildOk query vars →
  queries b ≠ []
  ∧ size (variables b) = length (requiredOccurrences b)
  ∧ (∀ k, k ∈ requiredOccurrences b → k ∈ declared (variables b))
  ∧ query = bindingsOf b ∧ vars = variables b.
Proof.
  intros Hb.
  assert (Hne : queries b ≠ []).
  { intros Hnil. by rewrite Build_empty in Hb. }
  destruct (Build_cases ro b Hne) as [[Hsz Hall]|Hbad].
  - rewrite Build_ok in Hb by done. injection Hb as <- <-. done.
  - by rewrite Build_mismatched in Hb.
Qed.

Lemma requiredOccurrences_Query b text bind :
  requiredOccurrences (Query b text bind)
  = requiredOccurrences b ++ findAllVariableNames text.
Proof.
  unfold requiredOccurrences, Query. simpl.
  rewrite fmap_app, concat_app. simpl. by rewrite app_nil_r.
Qed.

Lemma bindingsOf_Query b text bind :
  bindingsOf (Query b text bind) = bindingsOf b ++ [(text, bind)].
Proof. unfold bindingsOf, Query. simpl. by rewrite fmap_app. Qed.

Lemma requiredOccurrences_kept text extra qs :
  length (concat (requiredVars <$> qs))
  = length (concat (requiredVars <$> keptQueries text extra qs))
    + length (concat (requiredVars <$> removedQueries text extra qs)).
Proof.
  unfold keptQueries, removedQueries.
  induction qs as [|q qs IH]; [done|].
  destruct (decide (named text extra q)) as [Hq|Hq].
  - rewrite (filter_cons_False (λ q, ¬ named text extra q)) by tauto.
    rewrite (filter_cons_True (named text extra)) by done.
    rewrite !fmap_cons. simpl concat. rewrite !length_app. lia.
  - rewrite (filter_cons_True (λ q, ¬ named text extra q)) by done.
    rewrite (filter_cons_False (named text extra)) by done.
    rewrite !fmap_cons. simpl concat. rewrite !length_app. lia.
Qed.

Lemma occurrences_kept_sublist text extra qs :
  concat (requiredVars <$> keptQueries text extra qs)
  `sublist_of` concat (requiredVars <$> qs).
Proof.
  unfold keptQueries. induction qs as [|q qs IH]; [done|].
  destruct (decide (named text extra q)) as [Hq|Hq].
  - rewrite filter_cons_False by tauto. simpl.
    by apply sublist_inserts_l.
  - rewrite filter_cons_True by done. simpl. by apply sublist_app.
Qed.

Lemma declared_exactly vars (names : list string) :
  NoDup names → size vars = length names →
  (∀ k, k ∈ names → k ∈ declared vars) →
  declared vars = list_to_set names.
Proof.
  intros Hnd Hsz Hall. symmetry.
  apply set_subseteq_size_eq.
  - intros k Hk. apply Hall. by apply elem_of_list_to_set in Hk.
  - unfold declared. rewrite size_dom, Hsz, size_list_to_set; done.
Qed.
End build_facts.

Lemma filter_fmap_comm {A C} (f : A → C) (P : C → Prop)
    `{!∀ y, Decision (P y)} (l : list A) :
  filter P (f <$> l) = f <$> filter (λ x, P (f x)) l.
Proof.
  induction l as [|x l IH]; [done|]. rewrite fmap_cons.
  destruct (decide (P (f x))).
  - rewrite !filter_cons_True by done. by rewrite fmap_cons, IH.
  - by rewrite !filter_cons_False by done.
Qed.

(** X12.  The three outcomes of [Build].  It returns
    [errBuildQueryRequired] exactly when there is no fragment; it succeeds
    exactly when there is a fragment, the mapping has as many entries as
    there are required occurrences, and every required name is a key; and a
    success returns the [(text, binding)] pairs of the fragments, one per
    fragment and in their order, with the mapping of the receiver. *)
Theorem Build_outcomes {V B} (ro : rangeOrder V) (b : QueryBuilder V B) :
  (Build ro b = BuildErr errBuildQueryRequired ↔ queries b = [])
  ∧ (Build ro b = BuildOk (bindingsOf b) (variables b) ↔
       queries b ≠ []
       ∧ size (variables b) = length (requiredOccurrences b)
       ∧ ∀ k, k ∈ requiredOccurrences b → k ∈ declared (variables b))
  ∧ (∀ query vars, Build ro b = BuildOk query vars →
       query = bindingsOf b ∧ vars = variables b
       ∧ length query = length (queries b)).
Proof.
  split_and!.
  - split; [|apply Build_empty]. intros Hb.
    destruct (queries b) as [|q qs] eqn:Hq; [done|].
    assert (Hne : queries b ≠ []) by (by rewrite Hq).
    destruct (Build_cases ro b Hne) as [[Hsz Hall]|Hbad].
    + by rewrite Build_ok in Hb.
    + by rewrite Build_mismatched in Hb.
  - split.
    + intros Hb. apply Build_ok_inv in Hb. tauto.
    + intros (Hne & Hsz & Hall). by apply Build_ok.
  - intros query vars Hb. apply Build_ok_inv in Hb as (_ & _ & _ & -> & ->).
    split_and!; [done..|]. unfold bindingsOf. by rewrite length_fmap.
Qed.

(** X13.  The order in which [range] visits the mapping shows in nothing
    but the order of the declared names inside the mismatch error: under two
    orders [Build] returns the same result, or two mismatch errors with the
    same required names and the same declared names up to their order. *)
Theorem Build_order_independent {V B}
    (ro ro' : rangeOrder V) (b : QueryBuilder V B) :
  Build ro b = Build ro' b
  ∨ ∃ want got got',
      Build ro b = BuildErr (errMismatchedVariables want got)
      ∧ Build ro' b = BuildErr (errMismatchedVariables want got')
      ∧ got ≡ₚ got'.
Proof.
  destruct (queries b) as [|q qs] eqn:Hq.
  - left. by rewrite !Build_empty.
  - assert (Hne : queries b ≠ []) by (by rewrite Hq).
    destruct (Build_cases ro b Hne) as [[Hsz Hall]|Hbad].
    + left. by rewrite !Build_ok.
    + right. eexists _, _, _. split_and!; [by apply Build_mismatched..|].
      by rewrite !rangeMap_perm.
Qed.

(** X14.  [Query] on a builder that builds: the new builder builds, with
    the new pair at the end and the same mapping, when the text holds no
    variable; when the text holds one, [Build] fails with the mismatch
    error, the required names being the old ones followed by those of the
    text. *)
Theorem Build_after_Query {V B} (ro : rangeOrder V) (b : QueryBuilder V B)
    (query : list (QueryBinding B)) (vars : gmap string V)
    (text : string) (bind : B) :
  Build ro b = BuildOk query vars →
  Build ro (Query b text bind) =
  match findAllVariableNames text with
  | [] => BuildOk (query ++ [(text, bind)]) vars
  | _ :: _ =>
      BuildErr (errMismatchedVariables
                  (requiredOccurrences b ++ findAllVariableNames text)
                  (rangeMap ro vars).*1)
  end.
Proof.
  intros (Hne & Hsz & Hall & -> & ->)%Build_ok_inv.
  assert (Hne' : queries (Query b text bind) ≠ []).
  { unfold Query. simpl. by intros [? _]%app_eq_nil. }
  pose proof (requiredOccurrences_Query b text bind) as Hocc.
  destruct (findAllVariableNames text) as [|n ns] eqn:Hnames.
  - rewrite app_nil_r in Hocc.
    rewrite Build_ok; [by rewrite bindingsOf_Query|done|by rewrite Hocc|].
    by rewrite Hocc.
  - rewrite Build_mismatched; [by rewrite Hocc|done|].
    left. rewrite Hocc, length_app. simpl. change (variables (Query b text bind)) with (variables b). lia.
Qed.

Lemma Build_after_Query_witness :
  let b : QueryBuilder nat nat :=
    Variable_ (Query NewQueryBuilder "user(id: $id)" 0) "id" 1 in
  Build (stdOrder nat) b = BuildOk [("user(id: $id)", 0)] {[ "id" := 1 ]}
  ∧ Build (stdOrder nat) (Query b "pets" 2)
    = BuildOk [("user(id: $id)", 0); ("pets", 2)] {[ "id" := 1 ]}
  ∧ Build (stdOrder nat) (Query b "pet(n: $n)" 2)
    = BuildErr (errMismatchedVariables ["id"; "n"] ["id"]).
Proof.
  intros b.
  assert (Hb : Build (stdOrder nat) b
               = BuildOk [("user(id: $id)", 0)] {[ "id" := 1 ]})
    by (vm_compute; reflexivity).
  split_and!; [exact Hb| |].
  - exact (Build_after_Query (stdOrder nat) b _ _ "pets" 2 Hb).
  - exact (Build_after_Query (stdOrder nat) b _ _ "pet(n: $n)" 2 Hb).
Defined.

(** X15.  [Variable] on a builder that builds: giving a declared name a
    new value keeps the builder building, with the same pairs and the
    updated mapping; declaring a new name makes [Build] fail with the
    mismatch error. *)
Theorem Build_after_Variable {V B} (ro : rangeOrder V) (b : QueryBuilder V B)
    (query : list (QueryBinding B)) (vars : gmap string V)
    (key : string) (value : V) :
  Build ro b = BuildOk query vars →
  Build ro (Variable_ b key value) =
  if decide (key ∈ declared vars)
  then BuildOk query (<[key := value]> vars)
  else BuildErr (errMismatchedVariables
                   (requiredOccurrences b)
                   (rangeMap ro (<[key := value]> vars)).*1).
Proof.
  intros (Hne & Hsz & Hall & -> & ->)%Build_ok_inv.
  unfold declared in *. case_decide as Hk.
  - apply elem_of_dom in Hk.
    apply (Build_ok ro (Variable_ b key value)); [done| |].
    + unfold Variable_, setMapValue. simpl.
      by rewrite map_size_insert_Some.
    + intros k Hin. unfold Variable_, setMapValue, declared. simpl.
      rewrite dom_insert. apply elem_of_union_r. by apply Hall.
  - apply not_elem_of_dom in Hk.
    apply (Build_mismatched ro (Variable_ b key value)); [done|].
    left. unfold Variable_, setMapValue. simpl.
    rewrite map_size_insert_None by done.
    change (requiredOccurrences _) with (requiredOccurrences b). lia.
Qed.

Lemma Build_after_Variable_witness :
  let b : QueryBuilder nat nat :=
    Variable_ (Query NewQueryBuilder "user(id: $id)" 0) "id" 1 in
  Build (stdOrder nat) b = BuildOk [("user(id: $id)", 0)] {[ "id" := 1 ]}
  ∧ Build (stdOrder nat) (Variable_ b "id" 2)
    = BuildOk [("user(id: $id)", 0)] {[ "id" := 2 ]}
  ∧ Build (stdOrder nat) (Variable_ b "n" 2)
    = BuildErr (errMismatchedVariables ["id"] ["id"; "n"]).
Proof.
  intros b.
  assert (Hb : Build (stdOrder nat) b
               = BuildOk [("user(id: $id)", 0)] {[ "id" := 1 ]})
    by (vm_compute; reflexivity).
  pose proof (Build_after_Variable (stdOrder nat) b _ _ "id" 2 Hb) as H1.
  pose proof (Build_after_Variable (stdOrder nat) b _ _ "n" 2 Hb) as H2.
  split_and!; [exact Hb| |].
  - rewrite H1. vm_compute. reflexivity.
  - rewrite H2. vm_compute. reflexivity.
Defined.

(** X16.  [RemoveVariable] on a builder that builds: when one of the given
    names is declared, [Build] on the result fails with the mismatch error,
    which carries the unchanged required names and the remaining keys. *)
Theorem Build_after_RemoveVariable {V B}
    (ro ro' : rangeOrder V) (b : QueryBuilder V B)
    (query : list (QueryBinding B)) (vars : gmap string V)
    (key : string) (extra : list string) :
  Build ro b = BuildOk query vars →
  (∃ k, k ∈ key :: extra ∧ k ∈ declared vars) →
  Build ro (RemoveVariable ro' b key extra)
  = BuildErr (errMismatchedVariables
                (requiredOccurrences b)
                (rangeMap ro (filter (λ kv, kv.1 ∉ key :: extra) vars)).*1).
Proof.
  intros (Hne & Hsz & Hall & -> & ->)%Build_ok_inv (k & Hk & Hdecl).
  rewrite <- (RemoveVariable_variables ro' b key extra).
  apply (Build_mismatched ro (RemoveVariable ro' b key extra)); [done|].
  left. change (requiredOccurrences _) with (requiredOccurrences b).
  rewrite RemoveVariable_variables.
  apply elem_of_dom in Hdecl as [v Hv].
  assert (Hsub : filter (λ kv : string * V, kv.1 ∉ key :: extra) (variables b)
                 ⊆ delete k (variables b)).
  { apply map_subseteq_spec. intros k' v' [Hk' Hn]%map_lookup_filter_Some.
    simpl in Hn. rewrite lookup_delete_ne; [done|]. by intros ->. }
  apply map_subseteq_size in Hsub.
  rewrite map_size_delete_Some in Hsub by eauto.
  assert (0 < size (variables b)); [|lia].
  destruct (decide (size (variables b) = 0)) as [Hz|]; [|lia].
  apply map_size_empty_inv in Hz. rewrite Hz in Hv. done.
Qed.

Lemma Build_after_RemoveVariable_witness :
  let b : QueryBuilder nat nat :=
    Variable_ (Query NewQueryBuilder "user(id: $id)" 0) "id" 1 in
  Build (stdOrder nat) b = BuildOk [("user(id: $id)", 0)] {[ "id" := 1 ]}
  ∧ (∃ k, k ∈ ["id"] ∧ k ∈ declared ({[ "id" := 1 ]} : gmap string nat))
  ∧ Build (stdOrder nat) (RemoveVariable (stdOrder nat) b "id" [])
    = BuildErr (errMismatchedVariables ["id"] []).
Proof.
  intros b.
  assert (Hb : Build (stdOrder nat) b
               = BuildOk [("user(id: $id)", 0)] {[ "id" := 1 ]})
    by (vm_compute; reflexivity).
  assert (Hk : ∃ k, k ∈ ["id"] ∧ k ∈ declared ({[ "id" := 1 ]} : gmap string nat)).
  { exists "id". split; [by left|]. apply elem_of_dom. by exists 1. }
  split_and!; [exact Hb|exact Hk|].
  rewrite (Build_after_RemoveVariable (stdOrder nat) (stdOrder nat) b _ _ "id" []
             Hb Hk).
  vm_compute. reflexivity.
Defined.

(** X17.  [Remove] on a builder that builds: when no name is required
    twice and a fragment remains, the result builds, and returns the pairs of
    the remaining fragments with the mapping that [Remove] kept. *)
Theorem Build_after_Remove {V B} (ro : rangeOrder V) (b : QueryBuilder V B)
    (pairs : list (QueryBinding B)) (vars : gmap string V)
    (text : string) (extra : list string) :
  Build ro b = BuildOk pairs vars →
  NoDup (requiredOccurrences b) →
  (∃ q, q ∈ queries b ∧ query q ∉ text :: extra) →
  Build ro (Remove b text extra)
  = BuildOk (filter (λ p, p.1 ∉ text :: extra) pairs)
            (variables (Remove b text extra)).
Proof.
  intros (Hne & Hsz & Hall & -> & ->)%Build_ok_inv Hnd (q & Hq & Hkeep).
  set (kept := keptQueries text extra (queries b)).
  assert (Hqs : queries (Remove b text extra) = kept) by apply Remove_queries.
  assert (Hocc : requiredOccurrences (Remove b text extra)
                 = concat (requiredVars <$> kept)).
  { unfold requiredOccurrences. by rewrite Hqs. }
  assert (Hnd' : NoDup (concat (requiredVars <$> kept))).
  { eapply sublist_NoDup; [exact Hnd|]. apply occurrences_kept_sublist. }
  assert (Hdom : dom (variables (Remove b text extra))
                 = list_to_set (concat (requiredVars <$> kept))).
  { rewrite Remove_variables. apply dom_filter_L. intros k.
    rewrite elem_of_list_to_set. fold kept. simpl.
    rewrite <- requiredBy_occurrences. split.
    - intros Hk. assert (Hd : k ∈ declared (variables b)).
      { apply Hall. unfold requiredOccurrences.
        apply requiredBy_occurrences. by eapply requiredBy_kept. }
      apply elem_of_dom in Hd as [v Hv]. eauto.
    - by intros (v & _ & Hk). }
  replace (filter (λ p : QueryBinding B, p.1 ∉ text :: extra) (bindingsOf b))
    with (bindingsOf (Remove b text extra)).
  2:{ unfold bindingsOf. rewrite Hqs, filter_fmap_comm. done. }
  apply Build_ok.
  - rewrite Hqs. intros Hnil.
    assert (Hin : q ∈ kept) by (by apply list_elem_of_filter).
    rewrite Hnil in Hin. by apply elem_of_nil in Hin.
  - rewrite Hocc, <- size_dom, Hdom. by apply size_list_to_set.
  - intros k Hk. unfold declared. rewrite Hdom, elem_of_list_to_set.
    by rewrite <- Hocc.
Qed.

Lemma Build_after_Remove_witness :
  let b : QueryBuilder nat nat :=
    Variable_ (Variable_ (Query (Query NewQueryBuilder "user(id: $id)" 0)
                                "pet(n: $n)" 1) "id" 7) "n" 8 in
  Build (stdOrder nat) b
  = BuildOk [("user(id: $id)", 0); ("pet(n: $n)", 1)]
            (<["n" := 8]> {[ "id" := 7 ]})
  ∧ NoDup (requiredOccurrences b)
  ∧ (∃ q, q ∈ queries b ∧ query q ∉ ["pet(n: $n)"])
  ∧ Build (stdOrder nat) (Remove b "pet(n: $n)" [])
    = BuildOk [("user(id: $id)", 0)] {[ "id" := 7 ]}.
Proof.
  intros b.
  assert (Hb : Build (stdOrder nat) b
               = BuildOk [("user(id: $id)", 0); ("pet(n: $n)", 1)]
                         (<["n" := 8]> {[ "id" := 7 ]}))
    by (vm_compute; reflexivity).
  assert (Hnd : NoDup (requiredOccurrences b)).
  { change (NoDup ["id"; "n"]). repeat constructor.
    - rewrite elem_of_cons, elem_of_nil. intros [?|[]]. discriminate.
    - by intros ?%elem_of_nil. }
  assert (Hq : ∃ q, q ∈ queries b ∧ query q ∉ ["pet(n: $n)"]).
  { exists (mkItem "user(id: $id)" 0 ["id"]). split; [by left|].
    cbn. rewrite elem_of_cons, elem_of_nil. intros [?|[]]. discriminate. }
  split_and!; [exact Hb|exact Hnd|exact Hq|].
  rewrite (Build_after_Remove (stdOrder nat) b _ _ "pet(n: $n)" [] Hb Hnd Hq).
  vm_compute. reflexivity.
Defined.

Lemma occurrences_nil {B} (qs : list (queryBuilderItem B)) :
  concat (requiredVars <$> qs) = [] ↔ ∀ q, q ∈ qs → requiredVars q = [].
Proof.
  induction qs as [|q qs IH]; simpl.
  - split; [|done]. by intros _ q ?%elem_of_nil.
  - split.
    + intros [Hq Hqs]%app_eq_nil q' [->|Hin]%elem_of_cons; [done|].
      by apply IH.
    + intros Hall. rewrite (Hall q) by by left. simpl. apply IH.
      intros q' Hq'. apply Hall. by right.
Qed.

Lemma occurrences_not_nil {B} (qs : list (queryBuilderItem B)) :
  concat (requiredVars <$> qs) ≠ [] → ∃ q, q ∈ qs ∧ requiredVars q ≠ [].
Proof.
  induction qs as [|q qs IH]; simpl; [done|]. intros Hne.
  destruct (requiredVars q) as [|k ks] eqn:Hr.
  - destruct (IH Hne) as (q' & Hq' & Hreq). exists q'. split; [by right|done].
  - exists q. split; [by left|]. by rewrite Hr.
Qed.

(** X18.  [RemoveQuery] on a builder that builds, a fragment remaining: the
    result builds, with the remaining pairs and the same mapping, exactly
    when the removed fragments required no variable; and [Build] fails with
    the mismatch error exactly when a removed fragment required one, its
    entry being left behind in the mapping. *)
Theorem Build_after_RemoveQuery {V B} (ro : rangeOrder V) (b : QueryBuilder V B)
    (pairs : list (QueryBinding B)) (vars : gmap string V)
    (text : string) (extra : list string) :
  Build ro b = BuildOk pairs vars →
  (∃ q, q ∈ queries b ∧ query q ∉ text :: extra) →
  (Build ro (RemoveQuery b text extra)
   = BuildOk (filter (λ p, p.1 ∉ text :: extra) pairs) vars
   ↔ ∀ q, q ∈ queries b → query q ∈ text :: extra → requiredVars q = [])
  ∧ (isMismatch (Build ro (RemoveQuery b text extra))
     ↔ ∃ q, q ∈ queries b ∧ query q ∈ text :: extra ∧ requiredVars q ≠ []).
Proof.
  intros (Hne & Hsz & Hall & -> & ->)%Build_ok_inv (q0 & Hq0 & Hkeep).
  set (b' := RemoveQuery b text extra).
  set (kept := keptQueries text extra (queries b)).
  set (gone := removedQueries text extra (queries b)).
  assert (Hqs : queries b' = kept) by apply RemoveQuery_queries.
  assert (Hne' : queries b' ≠ []).
  { rewrite Hqs. intros Hnil.
    assert (Hin : q0 ∈ kept) by (by apply list_elem_of_filter).
    rewrite Hnil in Hin. by apply elem_of_nil in Hin. }
  assert (Hocc : requiredOccurrences b' = concat (requiredVars <$> kept)).
  { unfold requiredOccurrences. by rewrite Hqs. }
  assert (Hlen : length (requiredOccurrences b)
                 = length (requiredOccurrences b')
                   + length (concat (requiredVars <$> gone))).
  { rewrite Hocc. apply requiredOccurrences_kept. }
  assert (Hdecl : ∀ k, k ∈ requiredOccurrences b' → k ∈ declared (variables b')).
  { intros k Hk. apply Hall. rewrite Hocc in Hk.
    apply requiredBy_occurrences, requiredBy_kept in Hk.
    by apply requiredBy_occurrences. }
  assert (Hgone : concat (requiredVars <$> gone) = [] ↔
                  ∀ q, q ∈ queries b → query q ∈ text :: extra →
                       requiredVars q = []).
  { rewrite occurrences_nil. unfold gone, removedQueries. split.
    - intros Hg q Hq Hn. apply Hg. by apply list_elem_of_filter.
    - intros Hg q [Hn Hq]%list_elem_of_filter. by apply Hg. }
  assert (Hvars : variables b' = variables b) by done.
  replace (filter (λ p : QueryBinding B, p.1 ∉ text :: extra) (bindingsOf b))
    with (bindingsOf b').
  2:{ unfold bindingsOf. by rewrite Hqs, filter_fmap_comm. }
  rewrite <- Hvars at 1.
  destruct (decide (concat (requiredVars <$> gone) = [])) as [Hnil|Hsome].
  - assert (Hok : Build ro b' = BuildOk (bindingsOf b') (variables b')).
    { apply Build_ok; [done| |done]. rewrite Hvars, Hsz, Hlen, Hnil.
      simpl. lia. }
    split.
    + split; [intros _; by apply Hgone|done].
    + split.
      * intros (want & got & Hbad). by rewrite Hok in Hbad.
      * intros (q & Hq & Hn & Hreq). destruct Hreq.
        by apply (proj1 Hgone Hnil).
  - assert (Hbad : Build ro b'
                   = BuildErr (errMismatchedVariables (requiredOccurrences b')
                                 (rangeMap ro (variables b')).*1)).
    { apply Build_mismatched; [done|]. left. rewrite Hvars, Hsz, Hlen.
      destruct (concat (requiredVars <$> gone)); [done|]. simpl. lia. }
    split.
    + split; [by rewrite Hbad|]. intros Hg. by apply Hgone in Hg.
    + split; [|intros _; rewrite Hbad; by eexists _, _].
      intros _. destruct (occurrences_not_nil gone Hsome) as (q & Hq & Hreq).
      apply list_elem_of_filter in Hq as [Hn Hq]. by exists q.
Qed.

Lemma Build_after_RemoveQuery_witness :
  let b : QueryBuilder nat nat :=
    Variable_ (Query (Query NewQueryBuilder "user(id: $id)" 0) "pets" 1)
              "id" 7 in
  Build (stdOrder nat) b
  = BuildOk [("user(id: $id)", 0); ("pets", 1)] {[ "id" := 7 ]}
  ∧ (∃ q, q ∈ queries b ∧ query q ∉ ["pets"])
  ∧ Build (stdOrder nat) (RemoveQuery b "pets" [])
    = BuildOk [("user(id: $id)", 0)] {[ "id" := 7 ]}.
Proof.
  intros b.
  assert (Hb : Build (stdOrder nat) b
               = BuildOk [("user(id: $id)", 0); ("pets", 1)] {[ "id" := 7 ]})
    by (vm_compute; reflexivity).
  assert (Hq : ∃ q, q ∈ queries b ∧ query q ∉ ["pets"]).
  { exists (mkItem "user(id: $id)" 0 ["id"]). split; [apply list_elem_of_here|].
    intros Hn%list_elem_of_singleton. vm_compute in Hn. discriminate Hn. }
  assert (Hreq : ∀ q, q ∈ queries b → query q ∈ ["pets"] → requiredVars q = []).
  { apply (proj1 (Forall_forall
                    (λ q, query q ∈ ["pets"] → requiredVars q = [])
                    (queries b))).
    constructor; [|constructor; [|constructor]].
    - intros Hn%list_elem_of_singleton. vm_compute in Hn. discriminate Hn.
    - intros _. reflexivity. }
  split_and!; [exact Hb|exact Hq|].
  destruct (Build_after_RemoveQuery (stdOrder nat) b _ _ "pets" [] Hb Hq)
    as [[_ Hok] _].
  exact (Hok Hreq).
Defined.

(** ** Sharing in the store *)

Section store_aliasing.
Context {V B : Type} `{!Inhabited B}.
Implicit Types (st : Store.store V B) (s : Store.slice) (b : Store.builder).
Implicit Types (r : option Store.loc) (l : Store.loc) (m : gmap string V).

Lemma append_room gp st a len cap x cells :
  Store.arrays st !! a = Some cells → len < length cells → len < cap →
  Store.append gp (Store.mkSlice (Some a) len cap) x st
  = (Store.mkSlice (Some a) (S len) cap,
     Store.mkStore (<[a := <[len := x]> cells]> (Store.arrays st))
                   (Store.maps st)).
Proof.
  intros Ha Hlen Hroom. unfold Store.append. simpl.
  apply Nat.ltb_lt in Hroom. rewrite Hroom. do 2 f_equal.
  apply map_eq. intros a'. destruct (decide (a' = a)) as [->|Hne].
  - by rewrite lookup_alter_eq, lookup_insert_eq, Ha.
  - by rewrite lookup_alter_ne, lookup_insert_ne.
Qed.

Lemma append_full gp st s x s' st' :
  Store.slen s = Store.scap s →
  Store.append gp s x st = (s', st') →
  Store.arrays st ⊆ Store.arrays st' ∧ Store.maps st' = Store.maps st.
Proof.
  unfold Store.append. intros Hfull.
  destruct (Store.sarray s) as [a|].
  - rewrite Hfull, Nat.ltb_irrefl. intros [= <- <-]. simpl.
    split; [|done]. apply insert_subseteq, fresh_array_None.
  - intros [= <- <-]. simpl.
    split; [|done]. apply insert_subseteq, fresh_array_None.
Qed.

Lemma setMapValue_Some st l key value :
  Store.setMapValue (Some l) key value st
  = (Some l, Store.mkStore (Store.arrays st)
                           (alter (<[key := value]>) l (Store.maps st))).
Proof. done. Qed.

Lemma setMapValue_None st key value :
  Store.setMapValue None key value st
  = (Some (fresh (dom (Store.maps st))),
     Store.mkStore (Store.arrays st)
       (<[fresh (dom (Store.maps st)) := {[key := value]}]> (Store.maps st))).
Proof.
  unfold Store.setMapValue, Store.bind, Store.makeMap, Store.mapAssign,
    Store.ret. simpl. do 2 f_equal.
  apply map_eq. intros l'.
  destruct (decide (l' = fresh (dom (Store.maps st)))) as [->|Hne].
  - rewrite lookup_alter_eq, !lookup_insert_eq. simpl. by rewrite insert_empty.
  - by rewrite lookup_alter_ne, !lookup_insert_ne.
Qed.
End store_aliasing.

(** X19.  The store layer computes what the value layer says.  On a
    well-formed builder, each method run in the store returns a well-formed
    builder that denotes, in the new store, the result of the method of the
    same name on what the receiver denoted; [Build] reads the store and
    leaves it as it was. *)
Theorem store_methods_refine {V B} `{!Inhabited B}
    (gp : Store.growthPolicy) (ro : rangeOrder V)
    (st : Store.store V B) (b : Store.builder) :
  Store.wf st b →
  (let r := Store.NewQueryBuilder st in
   Store.wf r.2 r.1 ∧ Store.view r.2 r.1 = NewQueryBuilder)
  ∧ (∀ text bind,
       let r := Store.Query gp b text bind st in
       Store.wf r.2 r.1
       ∧ Store.view r.2 r.1 = Query (Store.view st b) text bind)
  ∧ (∀ key value,
       let r := Store.Variable_ b key value st in
       Store.wf r.2 r.1
       ∧ Store.view r.2 r.1 = Variable_ (Store.view st b) key value)
  ∧ (∀ vs, Store.wfMap st vs →
       let r := Store.Variables_ ro b vs st in
       Store.wf r.2 r.1
       ∧ Store.view r.2 r.1
         = Variables_ ro (Store.view st b) (Store.mapContents st vs))
  ∧ (∀ text extra,
       let r := Store.Remove gp b text extra st in
       Store.wf r.2 r.1
       ∧ Store.view r.2 r.1 = Remove (Store.view st b) text extra)
  ∧ (∀ text extra,
       let r := Store.RemoveQuery gp b text extra st in
       Store.wf r.2 r.1
       ∧ Store.view r.2 r.1 = RemoveQuery (Store.view st b) text extra)
  ∧ (∀ key extra,
       let r := Store.RemoveVariable ro b key extra st in
       Store.wf r.2 r.1
       ∧ Store.view r.2 r.1 = RemoveVariable ro (Store.view st b) key extra)
  ∧ Store.Build ro b st = (Build ro (Store.view st b), st).
Proof.
  intros Hwf. split_and!; [| | | | | | |done].
  - destruct (Store.NewQueryBuilder st) as [b' st'] eqn:Hrun.
    destruct (NewQueryBuilder_refines _ _ _ Hrun) as (_ & ? & ?). done.
  - intros text bind.
    destruct (Store.Query gp b text bind st) as [b' st'] eqn:Hrun.
    destruct (Query_refines _ _ _ _ _ _ _ Hwf Hrun) as (? & ? & _). done.
  - intros key value.
    destruct (Store.Variable_ b key value st) as [b' st'] eqn:Hrun.
    by destruct (Variable_refines _ _ _ _ _ _ Hwf Hrun).
  - intros vs Hvs.
    destruct (Store.Variables_ ro b vs st) as [b' st'] eqn:Hrun.
    destruct (Variables_refines _ _ _ _ _ _ Hwf Hvs Hrun) as (_ & ? & ?). done.
  - intros text extra.
    destruct (Store.Remove gp b text extra st) as [b' st'] eqn:Hrun.
    destruct (Remove_refines _ _ _ _ _ _ _ Hwf Hrun) as (_ & ? & ?). done.
  - intros text extra.
    destruct (Store.RemoveQuery gp b text extra st) as [b' st'] eqn:Hrun.
    destruct (RemoveQuery_refines _ _ _ _ _ _ _ Hwf Hrun) as (_ & ? & ?). done.
  - intros key extra.
    destruct (Store.RemoveVariable ro b key extra st) as [b' st'] eqn:Hrun.
    destruct (RemoveVariable_refines _ _ _ _ _ _ _ Hwf Hrun) as (_ & ? & ?). done.
Qed.

Lemma store_methods_refine_witness :
  let st0 : Store.store nat nat := Store.emptyStore in
  let b := (Store.NewQueryBuilder st0).1 in
  let st := (Store.NewQueryBuilder st0).2 in
  Store.wf st b
  ∧ Store.view (Store.Query Store.doubling b "user(id: $id)" 0 st).2
               (Store.Query Store.doubling b "user(id: $id)" 0 st).1
    = Query NewQueryBuilder "user(id: $id)" 0.
Proof.
  intros st0 b st.
  assert (Hwf : Store.wf st b).
  { split; [done|]. by exists ∅. }
  split; [exact Hwf|].
  destruct (store_methods_refine Store.doubling (stdOrder nat) st b Hwf)
    as (_ & Hq & _).
  exact (proj2 (Hq "user(id: $id)" 0)).
Defined.

(** X20.  [Query] twice on one receiver whose slice has spare capacity:
    both calls write the cell after the receiver's last one, so the two
    results are the same slice header over the same array, and the builder
    returned by the first call ends, after the second call, with the
    fragment of the second. *)
Theorem Query_spare_capacity_shared {V B} `{!Inhabited B}
    (gp : Store.growthPolicy) (st : Store.store V B) (b : Store.builder)
    (t1 : string) (x1 : B) (t2 : string) (x2 : B)
    (c d : Store.builder) (st1 st2 : Store.store V B) :
  Store.wf st b →
  Store.slen (Store.queriesRef b) < Store.scap (Store.queriesRef b) →
  Store.Query gp b t1 x1 st = (c, st1) →
  Store.Query gp b t2 x2 st1 = (d, st2) →
  d = c
  ∧ queries (Store.view st1 c)
    = queries (Store.view st b) ++ [mkItem t1 x1 (findAllVariableNames t1)]
  ∧ queries (Store.view st2 c)
    = queries (Store.view st b) ++ [mkItem t2 x2 (findAllVariableNames t2)].
Proof.
  destruct b as [[[a|] len cap] r]; simpl.
  2:{ intros [[Hl Hc] _] Hroom. simpl in *. lia. }
  intros [(cells & Ha & Hlen & Hle) Hr] Hroom. simpl in Ha, Hlen, Hle, Hr, Hroom.
  unfold Store.Query, Store.bind, Store.ret. simpl Store.queriesRef.
  rewrite (append_room gp st a len cap _ cells) by (done || lia).
  intros [= <- <-].
  rewrite (append_room gp _ a len cap _ (<[len := mkItem t1 x1 (findAllVariableNames t1)]> cells)).
  2:{ simpl. by rewrite lookup_insert_eq. }
  2:{ rewrite length_insert. lia. }
  2:{ done. }
  intros [= <- <-]. split; [done|].
  unfold Store.view, Store.sliceContents. simpl.
  rewrite Ha, !lookup_insert_eq. simpl.
  rewrite list_insert_insert_eq.
  split.
  - rewrite (take_S_r _ _ (mkItem t1 x1 (findAllVariableNames t1)))
      by (apply list_lookup_insert_eq; lia).
    by rewrite take_insert_ge.
  - rewrite (take_S_r _ _ (mkItem t2 x2 (findAllVariableNames t2)))
      by (apply list_lookup_insert_eq; lia).
    by rewrite take_insert_ge.
Qed.

Lemma Query_spare_capacity_shared_witness :
  let st0 : Store.store nat nat := Store.emptyStore in
  let r0 := Store.NewQueryBuilder st0 in
  let r1 := Store.Query Store.doubling r0.1 "a" 1 r0.2 in
  let r2 := Store.Query Store.doubling r1.1 "b" 2 r1.2 in
  let r3 := Store.Query Store.doubling r2.1 "c" 3 r2.2 in
  let rc := Store.Query Store.doubling r3.1 "d" 4 r3.2 in
  let rd := Store.Query Store.doubling r3.1 "e" 5 rc.2 in
  Store.wf r3.2 r3.1
  ∧ Store.slen (Store.queriesRef r3.1) < Store.scap (Store.queriesRef r3.1)
  ∧ rd.1 = rc.1
  ∧ queries (Store.view rd.2 rc.1)
    = queries (Store.view r3.2 r3.1) ++ [mkItem "e" 5 []].
Proof.
  intros st0 r0 r1 r2 r3 rc rd.
  assert (Hwf : Store.wf r3.2 r3.1).
  { split.
    - exists [mkItem "a" 1 []; mkItem "b" 2 []; mkItem "c" 3 []; Store.zeroItem].
      split_and!; [vm_compute; reflexivity|vm_compute; reflexivity|].
      vm_compute. lia.
    - exists ∅. vm_compute. reflexivity. }
  assert (Hroom : Store.slen (Store.queriesRef r3.1)
                  < Store.scap (Store.queriesRef r3.1)) by (vm_compute; lia).
  destruct (Query_spare_capacity_shared Store.doubling r3.2 r3.1 "d" 4 "e" 5
              rc.1 rd.1 rc.2 rd.2 Hwf Hroom
              (surjective_pairing rc) (surjective_pairing rd))
    as (Hd & _ & Hc).
  split_and!; [exact Hwf|exact Hroom|exact Hd|exact Hc].
Defined.

(** X21.  [Query] twice on one receiver whose slice is full (the nil slice
    included): each call copies into a new array, so the two results are
    independent, and every builder value that was well-formed before the
    calls denotes the same contents after them. *)
Theorem Query_full_capacity_copies {V B} `{!Inhabited B}
    (gp : Store.growthPolicy) (st : Store.store V B) (b b0 : Store.builder)
    (t1 : string) (x1 : B) (t2 : string) (x2 : B)
    (c d : Store.builder) (st1 st2 : Store.store V B) :
  Store.wf st b → Store.wf st b0 →
  Store.slen (Store.queriesRef b) = Store.scap (Store.queriesRef b) →
  Store.Query gp b t1 x1 st = (c, st1) →
  Store.Query gp b t2 x2 st1 = (d, st2) →
  Store.view st2 b0 = Store.view st b0
  ∧ Store.view st2 c = Query (Store.view st b) t1 x1
  ∧ Store.view st2 d = Query (Store.view st b) t2 x2.
Proof.
  intros Hb Hb0 Hfull Hc Hd.
  destruct (Query_refines _ _ _ _ _ _ _ Hb Hc) as (Hwc & Hvc & Hb1 & Hvb1).
  destruct (Query_refines _ _ _ _ _ _ _ Hb1 Hd) as (Hwd & Hvd & _ & _).
  assert (Hext1 : Store.extends st st1).
  { unfold Store.Query, Store.bind in Hc.
    destruct (Store.append gp _ _ st) as [qs st'] eqn:Happ.
    injection Hc as <- <-.
    destruct (append_full _ _ _ _ _ _ Hfull Happ) as [? Hm].
    split; [done|by rewrite Hm]. }
  assert (Hext2 : Store.extends st1 st2).
  { unfold Store.Query, Store.bind in Hd.
    destruct (Store.append gp _ _ st1) as [qs st'] eqn:Happ.
    injection Hd as <- <-.
    destruct (append_full _ _ _ _ _ _ Hfull Happ) as [? Hm].
    split; [done|by rewrite Hm]. }
  split_and!.
  - destruct (view_extends st st1 b0 Hext1 Hb0) as [Hb01 Hv1].
    destruct (view_extends st1 st2 b0 Hext2 Hb01) as [_ Hv2]. congruence.
  - destruct (view_extends st1 st2 c Hext2 Hwc) as [_ Hv2]. congruence.
  - congruence.
Qed.

Lemma Query_full_capacity_copies_witness :
  let st0 : Store.store nat nat := Store.emptyStore in
  let r0 := Store.NewQueryBuilder st0 in
  let r1 := Store.Query Store.doubling r0.1 "a" 1 r0.2 in
  let rc := Store.Query Store.doubling r1.1 "d" 4 r1.2 in
  let rd := Store.Query Store.doubling r1.1 "e" 5 rc.2 in
  Store.wf r1.2 r1.1
  ∧ Store.slen (Store.queriesRef r1.1) = Store.scap (Store.queriesRef r1.1)
  ∧ Store.view rd.2 rc.1 = Query (Store.view r1.2 r1.1) "d" 4
  ∧ Store.view rd.2 rd.1 = Query (Store.view r1.2 r1.1) "e" 5.
Proof.
  intros st0 r0 r1 rc rd.
  assert (Hwf : Store.wf r1.2 r1.1).
  { split.
    - exists [mkItem "a" 1 []].
      split_and!; [vm_compute; reflexivity|vm_compute; reflexivity|].
      vm_compute. lia.
    - exists ∅. vm_compute. reflexivity. }
  assert (Hfull : Store.slen (Store.queriesRef r1.1)
                  = Store.scap (Store.queriesRef r1.1))
    by (vm_compute; reflexivity).
  destruct (Query_full_capacity_copies Store.doubling r1.2 r1.1 r1.1
              "d" 4 "e" 5 rc.1 rd.1 rc.2 rd.2 Hwf Hwf Hfull
              (surjective_pairing rc) (surjective_pairing rd))
    as (_ & Hc & Hd).
  split_and!; [exact Hwf|exact Hfull|exact Hc|exact Hd].
Defined.

(** X22.  [Variable] on a receiver whose map is not nil returns the
    receiver's own struct value and writes into the receiver's map: after
    the call, every builder value that holds the same map pointer has the
    new entry, every other one has the mapping it had, and no fragment list
    has changed. *)
Theorem Variable_shared_map {V B} `{!Inhabited B}
    (st : Store.store V B) (b b0 : Store.builder) (l : Store.loc)
    (key : string) (value : V) (b' : Store.builder) (st' : Store.store V B) :
  Store.wf st b → Store.wf st b0 →
  Store.variablesRef b = Some l →
  Store.Variable_ b key value st = (b', st') →
  b' = b
  ∧ queries (Store.view st' b0) = queries (Store.view st b0)
  ∧ variables (Store.view st' b0)
    = if decide (Store.variablesRef b0 = Some l)
      then <[key := value]> (variables (Store.view st b0))
      else variables (Store.view st b0).
Proof.
  intros [_ Hr] [Hs0 Hr0] Hl. unfold Store.Variable_, Store.bind.
  rewrite Hl, setMapValue_Some. unfold Store.ret. intros [= <- <-].
  split_and!.
  - destruct b. simpl in *. by subst.
  - done.
  - unfold Store.view, Store.mapContents. simpl.
    destruct (Store.variablesRef b0) as [l0|]; [|by case_decide].
    destruct Hr0 as [m0 Hm0]. case_decide as Hl0.
    + injection Hl0 as ->. by rewrite lookup_alter_eq, Hm0.
    + rewrite lookup_alter_ne; [done|]. congruence.
Qed.

Lemma Variable_shared_map_witness :
  let st0 : Store.store nat nat := Store.emptyStore in
  let r0 := Store.NewQueryBuilder st0 in
  let r1 := Store.Query Store.doubling r0.1 "person" 0 r0.2 in
  let r2 := Store.Variable_ r1.1 "id" 1 r1.2 in
  Store.wf r1.2 r1.1 ∧ Store.wf r1.2 r0.1
  ∧ Store.variablesRef r1.1 = Some 0
  ∧ variables (Store.view r2.2 r0.1)
    = <["id" := 1]> (variables (Store.view r1.2 r0.1)).
Proof.
  intros st0 r0 r1 r2.
  assert (Hwf : Store.wf r1.2 r1.1).
  { split.
    - exists [mkItem "person" 0 []].
      split_and!; [vm_compute; reflexivity|vm_compute; reflexivity|].
      vm_compute. lia.
    - exists ∅. vm_compute. reflexivity. }
  assert (Hwf0 : Store.wf r1.2 r0.1).
  { split; [done|]. exists ∅. vm_compute. reflexivity. }
  assert (Hl : Store.variablesRef r1.1 = Some 0) by (vm_compute; reflexivity).
  destruct (Variable_shared_map r1.2 r1.1 r0.1 0 "id" 1 r2.1 r2.2 Hwf Hwf0 Hl
              (surjective_pairing r2)) as (_ & _ & Hv).
  split_and!; [exact Hwf|exact Hwf0|exact Hl|].
  rewrite Hv. reflexivity.
Defined.

(** X23.  [Variable] on a receiver whose map is nil (the zero value
    [QueryBuilder{}]) allocates a map: the result holds the one new entry
    with the receiver's fragments, and every builder value that was
    well-formed before the call denotes the same contents after it. *)
Theorem Variable_nil_map_allocates {V B} `{!Inhabited B}
    (st : Store.store V B) (b b0 : Store.builder)
    (key : string) (value : V) (b' : Store.builder) (st' : Store.store V B) :
  Store.wf st b → Store.wf st b0 →
  Store.variablesRef b = None →
  Store.Variable_ b key value st = (b', st') →
  Store.view st' b' = mkBuilder (queries (Store.view st b)) {[ key := value ]}
  ∧ Store.view st' b0 = Store.view st b0.
Proof.
  intros Hb Hb0 Hnil Hrun.
  destruct (Variable_refines _ _ _ _ _ _ Hb Hrun) as [_ Hview].
  split.
  - rewrite Hview. unfold Variable_, setMapValue, Store.view. simpl.
    rewrite Hnil. simpl. by rewrite insert_empty.
  - unfold Store.Variable_, Store.bind in Hrun.
    rewrite Hnil, setMapValue_None in Hrun. injection Hrun as <- <-.
    apply view_extends; [|done]. split; simpl; [done|].
    apply insert_subseteq, fresh_map_None.
Qed.

Lemma Variable_nil_map_allocates_witness :
  let st : Store.store nat nat := Store.emptyStore in
  let b := Store.zeroBuilder in
  let r := Store.Variable_ b "id" 1 st in
  Store.wf st b ∧ Store.variablesRef b = None
  ∧ Store.view r.2 r.1 = mkBuilder [] {[ "id" := 1 ]}
  ∧ Store.view r.2 b = Store.view st b.
Proof.
  intros st b r.
  assert (Hwf : Store.wf st b) by done.
  destruct (Variable_nil_map_allocates st b b "id" 1 r.1 r.2 Hwf Hwf eq_refl
              (surjective_pairing r)) as [Hnew Hold].
  split_and!; [exact Hwf|reflexivity|exact Hnew|exact Hold].
Defined.

Lemma copying_methods_keep_snapshots_witness :
  let st0 : Store.store nat nat := Store.emptyStore in
  let r0 := Store.NewQueryBuilder st0 in
  let r1 := Store.Query Store.doubling r0.1 "user(id: $id)" 0 r0.2 in
  let r2 := Store.Variable_ r1.1 "id" 1 r1.2 in
  let b := r2.1 in
  let st := r2.2 in
  Store.wf st b
  ∧ Store.view (Store.Remove Store.doubling b "user(id: $id)" [] st).2 b
    = Store.view st b
  ∧ Store.view (Store.RemoveVariable (stdOrder nat) b "id" [] st).2 b
    = Store.view st b.
Proof.
  intros st0 r0 r1 r2 b st.
  assert (Hwf : Store.wf st b).
  { split.
    - exists [mkItem "user(id: $id)" 0 ["id"]].
      split_and!; [vm_compute; reflexivity|vm_compute; reflexivity|].
      vm_compute. lia.
    - exists {[ "id" := 1 ]}. vm_compute. reflexivity. }
  destruct (copying_methods_keep_snapshots Store.doubling (stdOrder nat)
              st b b Hwf Hwf) as (_ & Hrem & Hvar).
  split_and!; [exact Hwf|exact (proj1 (Hrem "user(id: $id)" []))|].
  exact (Hvar "id" []).
Defined.

(** ** The two builders *)

(** X25.  [Builder] and [QueryBuilder] agree.  Each method of [Builder] does,
    to the fragments and the variables, what the method of [QueryBuilder]
    does ([Bind] as [Query], [Unbind] as [Remove]), and hands the context on
    unchanged; [Context] replaces the context and nothing else; and the two
    [Build] return the same result. *)
Theorem Builder_agrees_with_QueryBuilder {C V B}
    (ro : rangeOrder V) (b : WithContext.Builder C V B) :
  let erase := WithContext.withoutContext in
  (∀ ctx, erase (WithContext.Context_ b ctx) = erase b
          ∧ WithContext.context (WithContext.Context_ b ctx) = ctx)
  ∧ (∀ text bind,
       erase (WithContext.Bind b text bind) = Query (erase b) text bind
       ∧ WithContext.context (WithContext.Bind b text bind)
         = WithContext.context b)
  ∧ (∀ key value,
       erase (WithContext.Variable_ b key value) = Variable_ (erase b) key value
       ∧ WithContext.context (WithContext.Variable_ b key value)
         = WithContext.context b)
  ∧ (∀ vs,
       erase (WithContext.Variables_ ro b vs) = Variables_ ro (erase b) vs
       ∧ WithContext.context (WithContext.Variables_ ro b vs)
         = WithContext.context b)
  ∧ (∀ text extra,
       erase (WithContext.Unbind b text extra) = Remove (erase b) text extra
       ∧ WithContext.context (WithContext.Unbind b text extra)
         = WithContext.context b)
  ∧ (∀ text extra,
       erase (WithContext.RemoveQuery b text extra)
       = RemoveQuery (erase b) text extra
       ∧ WithContext.context (WithContext.RemoveQuery b text extra)
         = WithContext.context b)
  ∧ (∀ key extra,
       erase (WithContext.RemoveVariable ro b key extra)
       = RemoveVariable ro (erase b) key extra
       ∧ WithContext.context (WithContext.RemoveVariable ro b key extra)
         = WithContext.context b)
  ∧ WithContext.Build ro b = Build ro (erase b).
Proof. intros erase. split_and!; try done; intros; split; done. Qed.
